(** * go-mpg123: the Go bindings to libmpg123 (mpg123/mpg123.go)

    A shallow embedding of the decoder bindings.  The native engine
    (libmpg123) and the caller-supplied [io.Reader] are external: they are
    interfaces ([Engine], [Reader]) whose implementations carry their own
    state.  Every Go function becomes a state-passing computation over a
    [World] that holds the reader state, the engine handle and the log of
    calls made across the two boundaries. *)

From Stdlib Require Import ZArith List String Bool Lia.
From Stdlib Require Import Strings.Byte.
Import ListNotations.
Local Open Scope Z_scope.

Set Implicit Arguments.

(** ** Go and C scalars *)

Module Go.

(** Two's-complement reduction to [bits] bits, unsigned and signed. *)
Definition wrapu (bits z : Z) : Z := z mod 2 ^ bits.
Definition wraps (bits z : Z) : Z :=
  (z + 2 ^ (bits - 1)) mod 2 ^ bits - 2 ^ (bits - 1).

(** [int] and [int64] on a 64-bit platform; cgo's [C.int], [C.long],
    [C.off_t] and [C.size_t]. *)
Definition int (z : Z) : Z := wraps 64 z.
Definition int64 (z : Z) : Z := wraps 64 z.
Definition C_int (z : Z) : Z := wraps 32 z.
Definition C_long (z : Z) : Z := wraps 64 z.
Definition C_off_t (z : Z) : Z := wraps 64 z.
Definition C_size_t (z : Z) : Z := wrapu 64 z.

Definition max_int : Z := 2 ^ 63 - 1.

(** [a * b] and [a / b] on [int]: the product wraps, the quotient
    truncates toward zero. *)
Definition mul (a b : Z) : Z := int (a * b).
Definition div (a b : Z) : Z := int (Z.quot a b).

(** Go [error] values; [nil] is [None] of [option error]. *)
Inductive error : Type :=
| EOF                        (* var EOF = errors.New("EOF") of package mpg123 *)
| io_EOF                     (* io.EOF *)
| Errorf (msg : string)      (* a value built by fmt.Errorf *)
| stream_error (id : nat).   (* any other error of the input stream *)

Definition error_eqb (a b : error) : bool :=
  match a, b with
  | EOF, EOF => true
  | io_EOF, io_EOF => true
  | Errorf s, Errorf t => String.eqb s t
  | stream_error i, stream_error j => Nat.eqb i j
  | _, _ => false
  end.

(** [err == e] for an interface value [err] that may be [nil]. *)
Definition err_is (err : option error) (e : error) : bool :=
  match err with
  | Some e' => error_eqb e' e
  | None => false
  end.

(** [len(s)] and [make([]byte, n)]. *)
Definition len (s : list byte) : Z := Z.of_nat (List.length s).
Definition make (n : Z) : list byte := repeat x00 (Z.to_nat n).

(** Storing [data] at the start of the slice [s]; the length of [s] does
    not change. *)
Definition store (data s : list byte) : list byte :=
  firstn (List.length s) (data ++ skipn (List.length data) s).

Inductive panic : Type :=
| index_out_of_range
| slice_bounds_out_of_range.

End Go.

Import Go.

(** ** libmpg123 return codes (enum mpg123_errors of mpg123.h) *)

Module C.
Definition MPG123_DONE : Z := -12.
Definition MPG123_NEW_FORMAT : Z := -11.
Definition MPG123_NEED_MORE : Z := -10.
Definition MPG123_ERR : Z := -1.
Definition MPG123_OK : Z := 0.
End C.

Definition IN_MAX_BUFFER_SIZE : Z := 16384.
Definition OUT_MAX_BUFFER_SIZE : Z := 32768.

(** ** The two external interfaces *)

(** [io.Reader]: [io_Read s n] is a call [Read(p)] with [len(p) = n]; it
    answers the bytes stored into [p], the count and the error. *)
Class Reader (S : Type) : Type := {
  io_Read : S -> Z -> (list byte * Z * option error) * S
}.

(** The native engine behind [*C.mpg123_handle].  A read or decode call
    answers its return code, the bytes it wrote to [outmemory] and the
    value it stored in [*done]. *)
Class Engine (H : Type) : Type := {
  mpg123_read : H -> Z -> (Z * list byte * Z) * H;
  mpg123_decode : H -> list byte -> Z -> (Z * list byte * Z) * H;
  mpg123_feed : H -> list byte -> Z * H;
  mpg123_close : H -> Z * H;
  mpg123_getformat : H -> (Z * Z * Z) * H;
  mpg123_seek : H -> Z -> Z -> Z * H;
  mpg123_strerror : H -> string;
  mpg123_encsize : Z -> Z
}.

(** Calls across the boundaries, newest first in the log. *)
Inductive Call : Type :=
| call_src_Read (n : Z)
| call_mpg123_read (buflen outmemsize : Z)
| call_mpg123_decode (input : list byte) (outmemsize : Z)
| call_mpg123_feed (data : list byte)
| call_mpg123_close
| call_mpg123_getformat
| call_mpg123_seek (offset whence : Z)
| call_mpg123_strerror
| call_log.

Record World (S H : Type) : Type := mkWorld {
  src : S;
  handle : H;
  calls : list Call
}.

(** ** Computations *)

Inductive Outcome (W A : Type) : Type :=
| Returned (a : A) (w : W)
| Panicked (p : panic) (w : W)
| OutOfBounds (w : W)      (* native code wrote past the end of a Go slice *)
| OutOfFuel.

Arguments Returned {W A} a w.
Arguments Panicked {W A} p w.
Arguments OutOfBounds {W A} w.
Arguments OutOfFuel {W A}.

Definition M (W A : Type) : Type := W -> Outcome W A.

Definition ret {W A} (a : A) : M W A := fun w => Returned a w.

Definition bind {W A B} (m : M W A) (k : A -> M W B) : M W B :=
  fun w =>
    match m w with
    | Returned a w' => k a w'
    | Panicked p w' => Panicked p w'
    | OutOfBounds w' => OutOfBounds w'
    | OutOfFuel => OutOfFuel
    end.

Definition raise {W A} (p : panic) : M W A := fun w => Panicked p w.

Notation "x <- m ;; k" := (bind m (fun x => k))
  (at level 61, m at next level, right associativity).
Notation "' pat <- m ;; k" := (bind m (fun x => match x with pat => k end))
  (at level 61, pat pattern, m at next level, right associativity).
Notation "m ;; k" := (bind m (fun _ => k))
  (at level 61, right associativity).

(** A [for { ... }] loop: the body either goes round again with a new loop
    state or returns from the function. *)
Fixpoint loop {W St R} (fuel : nat) (body : St -> M W (St + R)) (s : St)
  : M W R :=
  fun w =>
    match fuel with
    | O => OutOfFuel
    | S fuel' =>
        match body s w with
        | Returned (inl s') w' => loop fuel' body s' w'
        | Returned (inr r) w' => Returned r w'
        | Panicked p w' => Panicked p w'
        | OutOfBounds w' => OutOfBounds w'
        | OutOfFuel => OutOfFuel
        end
    end.

(** ** Boundary calls *)

Section Boundary.
Context {S H : Type} {R : Reader S} {E : Engine H}.

Local Abbreviation W := (World S H).

Definition record (c : Call) : M W unit :=
  fun w => Returned tt (mkWorld (src w) (handle w) (c :: calls w)).

(** [&buf[0]]: the index expression panics on an empty slice. *)
Definition addr0 (buf : list byte) : M W unit :=
  match buf with
  | [] => raise index_out_of_range
  | _ :: _ => ret tt
  end.

(** [s[0:n]] where [cap(s) = len(s)]. *)
Definition slice_to (s : list byte) (n : Z) : M W (list byte) :=
  if (n <? 0) || (len s <? n) then raise slice_bounds_out_of_range
  else ret (firstn (Z.to_nat n) s).

(** [src.Read(p)]: the reader is Go code, it stores inside [p]. *)
Definition src_Read (p : list byte) : M W (list byte * Z * option error) :=
  fun w =>
    let '(data, n, err, s') := io_Read (src w) (len p) in
    Returned (store data p, int n, err)
             (mkWorld s' (handle w) (call_src_Read (len p) :: calls w)).

(** [C.mpg123_read(mh, &buf[0], outmemsize, &done)] once [&buf[0]] has been
    taken: the engine only sees [outmemsize]. *)
Definition native_read (buf : list byte) (outmemsize : Z)
  : M W (Z * list byte * Z) :=
  fun w =>
    let '(rc, written, done, h') := mpg123_read (handle w) outmemsize in
    let w' := mkWorld (src w) h'
                (call_mpg123_read (len buf) outmemsize :: calls w) in
    if len buf <? len written then OutOfBounds w'
    else Returned (C_int rc, store written buf, C_size_t done) w'.

Definition native_decode (input out : list byte) (outmemsize : Z)
  : M W (Z * list byte * Z) :=
  fun w =>
    let '(rc, written, size, h') := mpg123_decode (handle w) input outmemsize in
    let w' := mkWorld (src w) h'
                (call_mpg123_decode input outmemsize :: calls w) in
    if len out <? len written then OutOfBounds w'
    else Returned (C_int rc, store written out, C_size_t size) w'.

Definition native_feed (data : list byte) : M W Z :=
  fun w =>
    let '(rc, h') := mpg123_feed (handle w) data in
    Returned (C_int rc)
             (mkWorld (src w) h' (call_mpg123_feed data :: calls w)).

Definition native_close : M W Z :=
  fun w =>
    let '(rc, h') := mpg123_close (handle w) in
    Returned (C_int rc) (mkWorld (src w) h' (call_mpg123_close :: calls w)).

Definition native_getformat : M W (Z * Z * Z) :=
  fun w =>
    let '(rate, chans, enc, h') := mpg123_getformat (handle w) in
    Returned (C_long rate, C_int chans, C_int enc)
             (mkWorld (src w) h' (call_mpg123_getformat :: calls w)).

Definition native_seek (offset whence : Z) : M W Z :=
  fun w =>
    let '(pos, h') := mpg123_seek (handle w) offset whence in
    Returned (C_off_t pos)
             (mkWorld (src w) h' (call_mpg123_seek offset whence :: calls w)).

Definition native_strerror : M W string :=
  fun w =>
    Returned (mpg123_strerror (handle w))
             (mkWorld (src w) (handle w) (call_mpg123_strerror :: calls w)).

Definition log : M W unit := record call_log.

End Boundary.

(** ** type Decoder *)

Module Decoder.
Section Methods.
Context {S H : Type} {R : Reader S} {E : Engine H}.

Local Abbreviation W := (World S H).

Definition strerror : M W string := native_strerror.

(** The error every binding builds from a failed native call. *)
Definition mpg123_error : M W (option error) :=
  s <- strerror ;; ret (Some (Errorf ("mpg123 error: " ++ s)%string)).

Definition GetFormat : M W (Z * Z * Z) :=
  '(cRate, cChans, cEnc) <- native_getformat ;;
  ret (int cRate, int cChans, int cEnc).

Definition Close : M W (option error) :=
  err <- native_close ;;
  if negb (err =? C.MPG123_OK) then mpg123_error else ret None.

(** The three exits shared by [Read] and [ReadAudioFrames]. *)
Definition read_result (err : Z) (buf : list byte) (done : Z)
  : M W (list byte * Z * option error) :=
  if err =? C.MPG123_DONE then ret (buf, int done, Some EOF)
  else if negb (err =? C.MPG123_OK) then
    e <- mpg123_error ;; ret (buf, int done, e)
  else ret (buf, int done, None).

Definition Read (buf : list byte) : M W (list byte * Z * option error) :=
  addr0 buf ;;
  '(err, buf', done) <- native_read buf (C_size_t (len buf)) ;;
  read_result err buf' done.

Definition GetEncodingBitsPerSample (encoding : Z) : Z :=
  mul 8 (int (C_int (mpg123_encsize (C_int encoding)))).

Definition ReadAudioFrames (frames : Z) (buf : list byte)
  : M W (list byte * Z * option error) :=
  '(_, channels, enc) <- GetFormat ;;
  let bytesPerSample := div (GetEncodingBitsPerSample enc) 8 in
  let framesToBytes := mul (mul bytesPerSample frames) channels in
  addr0 buf ;;
  '(err, buf', done) <- native_read buf (C_size_t framesToBytes) ;;
  read_result err buf' done.

Definition DecodeSamples (samples : Z) (audio : list byte)
  : M W (list byte * Z * option error) :=
  '(audio', rLen, err) <- ReadAudioFrames samples audio ;;
  if err_is err EOF then ret (audio', 0, None)
  else ret (audio', div rLen 4, None).

Definition Feed (buf : list byte) : M W (option error) :=
  addr0 buf ;;
  err <- native_feed buf ;;
  if negb (err =? C.MPG123_OK) then mpg123_error else ret None.

(** [Decode]: the first call of mpg123_decode, with the input chunk.  The
    result is either the early return or the pair of the accumulating
    buffer [b] and the scratch slice [out]. *)
Definition Decode_first (buf : list byte)
  : M W (list byte * list byte + list byte * option error) :=
  let out := make OUT_MAX_BUFFER_SIZE in
  addr0 buf ;;
  addr0 out ;;
  '(rc, out', size) <- native_decode buf out (C_size_t OUT_MAX_BUFFER_SIZE) ;;
  early <- (if rc =? C.MPG123_NEW_FORMAT then
              native_getformat ;; log ;; ret false
            else if (rc =? C.MPG123_ERR) || (rc =? C.MPG123_NEED_MORE) then
              log ;; ret true
            else ret false) ;;
  if early : bool then e <- mpg123_error ;; ret (inr ([], e))
  else
    let outLen := int size in
    if 0 <? outLen then
      chunk <- slice_to out' outLen ;;
      log ;;
      ret (inl ([] ++ chunk, out'))
    else ret (inl ([], out')).

(** One round of the drain loop: [inr] is the [break], carrying the
    return code that caused it. *)
Definition Decode_drain (st : list byte * list byte)
  : M W (list byte * list byte + Z * list byte) :=
  let '(b, out) := st in
  addr0 out ;;
  '(rc, out', size) <- native_decode [] out (C_size_t OUT_MAX_BUFFER_SIZE) ;;
  if (rc =? C.MPG123_ERR) || (rc =? C.MPG123_NEED_MORE) then ret (inr (rc, b))
  else
    let outLen := int size in
    if 0 <? outLen then
      chunk <- slice_to out' outLen ;;
      ret (inl (b ++ chunk, out'))
    else ret (inl (b, out')).

(** What follows the drain loop. *)
Definition Decode_finish (r : Z * list byte) : M W (list byte * option error) :=
  let '(rc, b) := r in
  if rc =? C.MPG123_ERR then
    log ;; e <- mpg123_error ;; ret ([], e)
  else ret (b, None).

(** [Decode] up to the end of the drain loop: [inl] is the early return of
    the first call, [inr] what the loop broke with. *)
Definition Decode_drained (fuel : nat) (buf : list byte)
  : M W (list byte * option error + Z * list byte) :=
  first <- Decode_first buf ;;
  match first with
  | inr early => ret (inl early)
  | inl st => r <- loop fuel Decode_drain st ;; ret (inr r)
  end.

Definition Decode (fuel : nat) (buf : list byte)
  : M W (list byte * option error) :=
  r <- Decode_drained fuel buf ;;
  match r with
  | inl early => ret early
  | inr r => Decode_finish r
  end.

Definition Seek (offset whence : Z) : M W (Z * option error) :=
  let c_offset := C_off_t offset in
  let c_whence := C_int whence in
  pos <- native_seek c_offset c_whence ;;
  ret (int64 pos, None).

End Methods.
End Decoder.

(** ** type DecoderReader *)

Module DecoderReader.

(** The fields that are not references; the decoder and the source are
    the ones of the [World]. *)
Record t : Type := mk {
  fps : Z;
  channels : Z;
  paranoid : bool
}.

Definition Paranoid (dr : t) : t := mk (fps dr) (channels dr) true.

Section Methods.
Context {S H : Type} {R : Reader S} {E : Engine H}.

Local Abbreviation W := (World S H).

Definition Nuke : M W unit := Decoder.Close ;; ret tt.

(** The feeding half of one round: [inr] is the early return of paranoid
    mode, [inl] the value [err] holds when the round goes on. *)
Definition Read_feed (dr : t) (buf : list byte) (n : Z) (err : option error)
  : M W (option error + Z * option error) :=
  match err with
  | None =>
      chunk <- slice_to buf n ;;
      ferr <- Decoder.Feed chunk ;;
      match ferr with
      | Some _ => log ;; ret (inl ferr)
      | None => ret (inl ferr)
      end
  | Some _ =>
      if paranoid dr then Nuke ;; ret (inr (0, err))
      else ret (inl err)
  end.

(** The cases the [switch] on the return code of mpg123_read lists. *)
Definition listed (msg : Z) : bool :=
  (msg =? C.MPG123_NEW_FORMAT) || (msg =? C.MPG123_OK)
  || (msg =? C.MPG123_DONE) || (msg =? C.MPG123_NEED_MORE).

(** The first case of the [switch]: the new format is queried and logged
    before control falls through. *)
Definition new_format (msg : Z) : M W unit :=
  if msg =? C.MPG123_NEW_FORMAT then Decoder.GetFormat ;; log else ret tt.

(** The reading half of one round, entered with the value [err] holds
    after the feeding half: [inr] is a [return], [inl] the next round. *)
Definition Read_output (buf bytes : list byte) (err : option error)
  : M W (list byte * list byte + list byte * Z * option error) :=
  addr0 bytes ;;
  '(msg, bytes', done) <- native_read bytes (C_size_t (len bytes)) ;;
  new_format msg ;;
  if listed msg then
    if 0 <? done then ret (inr (bytes', int done, None))
    else if err_is err io_EOF then
      Nuke ;; ret (inr (bytes', int done, Some io_EOF))
    else ret (inl (buf, bytes'))
  else ret (inl (buf, bytes')).

(** One round of the [for] loop; the loop state is the scratch slice [buf]
    and the caller's slice [bytes]. *)
Definition Read_body (dr : t) (st : list byte * list byte)
  : M W (list byte * list byte + list byte * Z * option error) :=
  let '(buf, bytes) := st in
  '(buf', n, err0) <- src_Read buf ;;
  fed <- Read_feed dr buf' n err0 ;;
  match fed with
  | inr (n', e) => ret (inr (bytes, n', e))
  | inl err => Read_output buf' bytes err
  end.

Definition Read (fuel : nat) (dr : t) (bytes : list byte)
  : M W (list byte * Z * option error) :=
  loop fuel (Read_body dr) (make (64 * 1024), bytes).

End Methods.
End DecoderReader.

(** ** What the bindings expect of the engine *)

(** mpg123_read stores at most [outmemsize] bytes and reports in [*done]
    a count within that size. *)
Definition read_within {H : Type} (E : Engine H) : Prop :=
  forall (h h' : H) (size rc done : Z) (written : list byte),
    mpg123_read h size = (rc, written, done, h') ->
    0 <= size ->
    0 <= done <= size /\ len written <= size.

(** The byte count [ReadAudioFrames] hands to mpg123_read for the format
    [(_, chans, enc)] the engine reports: the product of the sample size,
    the frame count and the channel count, reduced to a [size_t]. *)
Definition framesToBytes {H : Type} {E : Engine H} (enc frames chans : Z) : Z :=
  (C_int (mpg123_encsize (C_int enc)) * frames * C_int chans) mod 2 ^ 64.

(** The world a call of [DecoderReader.Nuke] leaves: the engine has been
    asked to close, and for its error string when the close failed. *)
Definition nuked {S H : Type} {E : Engine H} (w : World S H) : World S H :=
  let '(rc, h') := mpg123_close (handle w) in
  mkWorld (src w) h'
    ((if C_int rc =? C.MPG123_OK then [] else [call_mpg123_strerror])
     ++ call_mpg123_close :: calls w).

(** The rounds of a loop that go round again: [rounds body k s w s' w']
    when [k] rounds from state [s] in world [w] all continue and leave
    state [s'] in world [w']. *)
Inductive rounds {W St R} (body : St -> M W (St + R))
  : nat -> St -> W -> St -> W -> Prop :=
| rounds_O : forall s w, rounds body O s w s w
| rounds_S : forall k s w s1 w1 s' w',
    body s w = Returned (inl s1) w1 ->
    rounds body k s1 w1 s' w' ->
    rounds body (S k) s w s' w'.

(** Projections of an outcome. *)
Definition returned {W A} (o : Outcome W A) : option A :=
  match o with
  | Returned a _ => Some a
  | _ => None
  end.

Definition world_after {W A} (o : Outcome W A) : option W :=
  match o with
  | Returned _ w | Panicked _ w | OutOfBounds w => Some w
  | OutOfFuel => None
  end.

(** The count and the error of a read, without the slice. *)
Definition status {W} (o : Outcome W (list byte * Z * option error))
  : option (Z * option error) :=
  match o with
  | Returned (_, n, err) _ => Some (n, err)
  | _ => None
  end.

(** ** A scripted reader and a scripted engine

    Concrete implementations of the two interfaces, used to run the
    bindings: each answers its calls from a list. *)

Module Script.

(** A reader answers from its script; at the end of the script it is at
    end of input. *)
Definition reader : Type := list (list byte * Z * option error).

#[export] Instance Reader_reader : Reader reader := {
  io_Read s _ :=
    match s with
    | [] => (([], 0, Some io_EOF), [])
    | a :: s' => (a, s')
    end
}.

(** An engine answers mpg123_read and mpg123_decode from lists of return
    codes with the bytes at hand, of which it stores what fits in
    [outmemsize]; once a list is used up, and after mpg123_close, it
    answers [idle]. *)
Record engine : Type := mk_engine {
  reads : list (Z * list byte);
  decodes : list (Z * list byte);
  feed_code : Z;
  format : Z * Z * Z;
  seek_code : Z;
  idle : Z
}.

Definition answer (q : list (Z * list byte)) (idle size : Z)
  : (Z * list byte * Z) * list (Z * list byte) :=
  match q with
  | [] => ((idle, [], 0), [])
  | (rc, bs) :: q' =>
      let out := firstn (Z.to_nat size) bs in
      ((rc, out, len out), q')
  end.

(** The sample sizes libmpg123 documents for its encodings. *)
Definition encsize (enc : Z) : Z :=
  if enc <? 1 then 0
  else if negb (Z.land enc 15 =? 0) then 1
  else if negb (Z.land enc 64 =? 0) then 2
  else if negb (Z.land enc 16384 =? 0) then 3
  else if negb (Z.land enc 256 =? 0) || (enc =? 512) then 4
  else if enc =? 1024 then 8
  else 0.

#[export] Instance Engine_engine : Engine engine := {
  mpg123_read h size :=
    let '(a, q) := answer (reads h) (idle h) size in
    (a, mk_engine q (decodes h) (feed_code h) (format h) (seek_code h) (idle h));
  mpg123_decode h _ size :=
    let '(a, q) := answer (decodes h) (idle h) size in
    (a, mk_engine (reads h) q (feed_code h) (format h) (seek_code h) (idle h));
  mpg123_feed h _ := (feed_code h, h);
  mpg123_close h :=
    (C.MPG123_OK,
     mk_engine [] [] C.MPG123_ERR (format h) (seek_code h) C.MPG123_ERR);
  mpg123_getformat h := (format h, h);
  mpg123_seek h _ _ := (seek_code h, h);
  mpg123_strerror _ := "scripted"%string;
  mpg123_encsize := encsize
}.

Definition world (r : reader) (e : engine) : World reader engine :=
  mkWorld r e [].

(** 44100 Hz, 16-bit signed samples (MPG123_ENC_SIGNED_16 is 0xd0), stereo
    and mono. *)
Definition stereo16 : Z * Z * Z := (44100, 2, 208).
Definition mono16 : Z * Z * Z := (44100, 1, 208).

End Script.

(** ** Runs

    The readers, engines and sessions the bindings are run on below. *)

Module Run.
Import Script.

Definition lenient : DecoderReader.t := DecoderReader.mk 44100 2 false.
Definition paranoid : DecoderReader.t := DecoderReader.Paranoid lenient.

(** A caller's slice of two bytes and one of four. *)
Definition two : list byte := [x00; x00].
Definition four : list byte := [x00; x00; x00; x00].

(** An engine with four decoded bytes at hand. *)
Definition four_bytes (fmt : Z * Z * Z) (rc : Z) : engine :=
  mk_engine [(rc, [x01; x02; x03; x04])] [] C.MPG123_OK fmt 0 C.MPG123_ERR.

(** An engine that has nothing to give and asks for more input once. *)
Definition hungry : engine :=
  mk_engine [(C.MPG123_NEED_MORE, [])] [] C.MPG123_OK stereo16 0 C.MPG123_ERR.

(** An engine whose every mpg123_read fails: the state [mpg123_close]
    leaves, or that of a handle in a hard error. *)
Definition failed : engine :=
  mk_engine [] [] C.MPG123_ERR stereo16 0 C.MPG123_ERR.

(** An engine whose mpg123_seek fails. *)
Definition unseekable : engine :=
  mk_engine [] [] C.MPG123_OK stereo16 C.MPG123_ERR C.MPG123_ERR.

(** An engine that decodes two chunks and then hits a hard error, and one
    that decodes the same chunks and then asks for more input. *)
Definition breaks : engine :=
  mk_engine []
    [(C.MPG123_OK, [x01; x02]); (C.MPG123_OK, [x03]); (C.MPG123_ERR, [])]
    C.MPG123_OK stereo16 0 C.MPG123_NEED_MORE.
Definition drains : engine :=
  mk_engine []
    [(C.MPG123_OK, [x01; x02]); (C.MPG123_OK, [x03])]
    C.MPG123_OK stereo16 0 C.MPG123_NEED_MORE.

(** A stream whose last two bytes come together with [io.EOF], and one
    that fails at once with an error of its own. *)
Definition last_bytes : reader := [([x07; x08], 2, Some io_EOF)].
Definition broken : reader := [([], 0, Some (stream_error 7))].

(** The world the first [Read] on [hungry] and an empty stream leaves: the
    session has returned end of stream and the decoder is closed. *)
Definition ended : World reader engine :=
  mkWorld [] failed
    [call_mpg123_close; call_mpg123_read 2 2; call_src_Read 65536].

End Run.

(** ** The rest of the package *)

(** mpg123_decode stores at most [outmemsize] bytes and reports in [*done]
    a count within that size. *)
Definition decode_within {H : Type} (E : Engine H) : Prop :=
  forall (h h' : H) (input written : list byte) (size rc done : Z),
    mpg123_decode h input size = (rc, written, done, h') ->
    0 <= size ->
    0 <= done <= size /\ len written <= size.

(** A computation that never writes out of bounds, and one that never
    panics. *)
Definition in_bounds {W A : Type} (m : M W A) : Prop :=
  forall w w', m w <> OutOfBounds w'.

Definition no_panic {W A : Type} (m : M W A) : Prop :=
  forall w p w', m w <> Panicked p w'.

(** A stretch of the log without mpg123_close, and what a computation adds
    to the log when it returns. *)
Definition quiet (cs : list Call) : Prop := ~ In call_mpg123_close cs.

Definition logs {S H A : Type} (Q : A -> list Call -> Prop)
    (m : M (World S H) A) : Prop :=
  forall w a w',
    m w = Returned a w' -> exists cs, calls w' = cs ++ calls w /\ Q a cs.

(** What [DecoderReader.Read] adds to the log: a close exactly when it
    returns an error. *)
Definition closed_iff_error (r : list byte * Z * option error)
    (cs : list Call) : Prop :=
  match r with
  | (_, _, None) => quiet cs
  | (_, _, Some _) => In call_mpg123_close cs
  end.

(** What one round of its loop adds: a close exactly when it returns an error. *)
Definition round_log {A : Type}
    (r : A + list byte * Z * option error) (cs : list Call) : Prop :=
  match r with
  | inl _ => quiet cs
  | inr res => closed_iff_error res cs
  end.

(** [SupportedDecoders]: the walk over the array mpg123_supported_decoders
    points to.  [mem] holds the entries from the current address on, [None]
    a NULL entry; running off [mem] is a read outside the array, [None] of
    the result. *)
Fixpoint SupportedDecoders_from (mem : list (option string))
    (strings : list string) : option (list string) :=
  match mem with
  | [] => None
  | None :: _ => Some strings
  | Some dec :: mem' => SupportedDecoders_from mem' (strings ++ [dec])
  end.

Definition SupportedDecoders (mem : list (option string))
  : option (list string) :=
  SupportedDecoders_from mem [].

(** [NewDecoder].  The library calls that need no handle of their own:
    mpg123_new answers a handle or NULL and the code it stored in [*error];
    mpg123_param answers a code and changes the handle (its last argument,
    the constant [0.] of the source, is left out). *)
Class Library (H : Type) : Type := {
  mpg123_new : option string -> option H * Z;
  mpg123_param : H -> Z -> Z -> Z * H
}.

(** MPG123_FLAGS of enum mpg123_parms. *)
Definition MPG123_FLAGS : Z := 1.

(** The calls of [NewDecoder], newest first in the log; the flag of
    [lib_param] tells a call on a NULL handle. *)
Inductive LibCall : Type :=
| lib_CString (s : string)
| lib_free_CString
| lib_new (decoder : option string)
| lib_param (null : bool) (type value : Z)
| lib_plain_strerror (err : Z)
| lib_free_errstring.

(** How a call of [NewDecoder] ends: it returns, it panics, or it hands
    [C.free] a pointer that malloc never returned.  The string of
    mpg123_plain_strerror is a constant of the library, in static storage;
    freeing it is undefined in C, and the C library answers it by aborting
    the process: nothing is returned, no deferred call runs. *)
Inductive Construction (A : Type) : Type :=
| Constructed (a : A) (w : list LibCall)
| Construction_panicked (p : panic) (w : list LibCall)
| Invalid_free (w : list LibCall).

Arguments Construction_panicked {A} p w.
Arguments Invalid_free {A} w.

Section Construction.
Context {H : Type} {L : Library H}.

(** [C.mpg123_param(mh, C.MPG123_FLAGS, params[0], 0.)]: [params[0]]
    panics on an empty slice; the deferred free of [cdecoder] runs while
    the panic unwinds. *)
Definition NewDecoder_param (mh : option H) (params : option (list Z))
    (w : list LibCall) : Construction (option H) :=
  match params with
  | None => Constructed mh w
  | Some [] => Construction_panicked index_out_of_range (lib_free_CString :: w)
  | Some (p :: _) =>
      match mh with
      | None => Constructed None (lib_param true MPG123_FLAGS (C_long p) :: w)
      | Some h =>
          Constructed (Some (snd (mpg123_param h MPG123_FLAGS (C_long p))))
            (lib_param false MPG123_FLAGS (C_long p) :: w)
      end
  end.

(** The part of [NewDecoder] after the handle has been made; [named] tells
    whether the deferred free of [cdecoder] is pending.  With a NULL handle
    the code takes the string of mpg123_plain_strerror, copies it, and
    frees the library's string: the [return nil, fmt.Errorf(...)] after it
    is never reached. *)
Definition NewDecoder_finish (named : bool) (mh : option H) (err : Z)
    (w : list LibCall) : Construction (option H * option error) :=
  match mh with
  | None =>
      Invalid_free (lib_free_errstring :: lib_plain_strerror (C_int err) :: w)
  | Some h =>
      Constructed (Some h, None) (if named then lib_free_CString :: w else w)
  end.

Definition NewDecoder (decoder : string) (params : option (list Z))
    (w : list LibCall) : Construction (option H * option error) :=
  if String.eqb decoder "" then
    let '(mh, err) := mpg123_new None in
    NewDecoder_finish false mh err (lib_new None :: w)
  else
    let '(mh, err) := mpg123_new (Some decoder) in
    match NewDecoder_param mh params
            (lib_new (Some decoder) :: lib_CString decoder :: w) with
    | Constructed mh' w' => NewDecoder_finish true mh' err w'
    | Construction_panicked p w' => Construction_panicked p w'
    | Invalid_free w' => Invalid_free w'
    end.

End Construction.

(** ** examples/mp3dump: the loop of main *)

Module mp3dump.
Section Main.
Context {S H : Type} {R : Reader S} {E : Engine H}.

Local Abbreviation W := (World S H).

(** One round of the decode loop; the loop state is [buf] and the bytes
    handed to [o.Write] so far. *)
Definition dump_body (st : list byte * list byte)
  : M W (list byte * list byte + list byte) :=
  let '(buf, o) := st in
  '(buf', n, err) <- Decoder.Read buf ;;
  chunk <- slice_to buf' n ;;
  match err with
  | Some _ => ret (inr (o ++ chunk))
  | None => ret (inl (buf', o ++ chunk))
  end.

Definition dump (fuel : nat) : M W (list byte) :=
  loop fuel dump_body (make (2048 * 16), []).

End Main.
End mp3dump.

(** ** A scripted library and more runs *)

Module ScriptLib.

(** A library that knows one decoder by name, "generic"; a handle is the
    flags set on it, and 9 the code of an unknown decoder. *)
#[export] Instance Library_flags : Library Z := {
  mpg123_new name :=
    match name with
    | None => (Some 0, 0)
    | Some d => if String.eqb d "generic" then (Some 0, 0) else (None, 9)
    end;
  mpg123_param h type value :=
    if type =? MPG123_FLAGS then (0, value) else (0, h)
}.

End ScriptLib.

Module Cases.
Import Script.

(** An engine whose first mpg123_decode asks for more input, and one whose
    mpg123_read fails with two bytes decoded. *)
Definition starved : engine :=
  mk_engine [] [(C.MPG123_NEED_MORE, [])] C.MPG123_OK stereo16 0
    C.MPG123_NEED_MORE.
Definition faulty : engine :=
  mk_engine [(C.MPG123_ERR, [x01; x02])] [] C.MPG123_OK stereo16 0
    C.MPG123_ERR.

(** A stream that answers a read with no bytes and no error. *)
Definition idle_stream : reader := [([], 0, None)].

(** The array of a library with two decoders. *)
Definition two_decoders : list (option string) :=
  [Some "x86-64"%string; Some "generic"%string; None; Some "junk"%string].

End Cases.

Module Waiting.

(** An engine with nothing to deliver that says so: open or closed, it
    answers every mpg123_read and mpg123_decode with MPG123_NEED_MORE and
    no bytes.  Its handle has no state. *)
#[global] Instance Engine_waiting : Engine unit := {
  mpg123_read _ _ := ((C.MPG123_NEED_MORE, [], 0), tt);
  mpg123_decode _ _ _ := ((C.MPG123_NEED_MORE, [], 0), tt);
  mpg123_feed _ _ := (C.MPG123_OK, tt);
  mpg123_close _ := (C.MPG123_OK, tt);
  mpg123_getformat _ := (Script.stereo16, tt);
  mpg123_seek _ _ _ := (0, tt);
  mpg123_strerror _ := "waiting"%string;
  mpg123_encsize := Script.encsize
}.

(** The session on it after a lenient [Read] has returned end of stream. *)
Definition ended : World Script.reader unit :=
  mkWorld [] tt
    [call_mpg123_close; call_mpg123_read 2 2; call_src_Read 65536].

End Waiting.

(** * Properties *)

Unset Implicit Arguments.

(** ** Scalars and slices *)

Lemma wraps_small (bits z : Z) :
  0 < bits -> - 2 ^ (bits - 1) <= z < 2 ^ (bits - 1) -> wraps bits z = z.
Proof.
  intros Hb Hz. unfold wraps.
  assert (Hp : 2 ^ bits = 2 * 2 ^ (bits - 1)).
  { replace bits with (Z.succ (bits - 1)) at 1 by lia.
    rewrite Z.pow_succ_r by lia. reflexivity. }
  rewrite Z.mod_small; lia.
Qed.

Lemma int_small (z : Z) : - 2 ^ 63 <= z < 2 ^ 63 -> int z = z.
Proof. intros Hz. unfold int. apply wraps_small; [lia | exact Hz]. Qed.

Lemma C_int_small (z : Z) : - 2 ^ 31 <= z < 2 ^ 31 -> C_int z = z.
Proof. intros Hz. unfold C_int. apply wraps_small; [lia | exact Hz]. Qed.

Lemma C_int_range (z : Z) : - 2 ^ 31 <= C_int z < 2 ^ 31.
Proof.
  unfold C_int, wraps.
  pose proof (Z.mod_pos_bound (z + 2 ^ (32 - 1)) (2 ^ 32) ltac:(lia)). lia.
Qed.

Lemma C_size_t_range (z : Z) : 0 <= C_size_t z < 2 ^ 64.
Proof. unfold C_size_t, wrapu. apply Z.mod_pos_bound. lia. Qed.

Lemma C_size_t_small (z : Z) : 0 <= z < 2 ^ 64 -> C_size_t z = z.
Proof. intros Hz. unfold C_size_t, wrapu. apply Z.mod_small. exact Hz. Qed.

(** A signed reduction is congruent to its argument modulo [2 ^ 64]. *)
Lemma C_size_t_int (z : Z) : C_size_t (int z) = C_size_t z.
Proof.
  unfold C_size_t, int, wrapu, wraps.
  replace (2 ^ (64 - 1)) with (2 ^ 63) by reflexivity.
  rewrite Zminus_mod, Zmod_mod, <- Zminus_mod.
  f_equal. lia.
Qed.

(** A count the engine stored in a [size_t] is never read back as zero
    unless it is zero. *)
Lemma int_C_size_t_zero (z : Z) : int (C_size_t z) = 0 -> C_size_t z = 0.
Proof.
  intros Hz. pose proof (C_size_t_range z) as Hr.
  destruct (Z_lt_ge_dec (C_size_t z) (2 ^ 63)) as [Hlt | Hge].
  - rewrite int_small in Hz by lia. exact Hz.
  - exfalso. unfold int, wraps in Hz.
    replace (2 ^ (64 - 1)) with (2 ^ 63) in Hz by reflexivity.
    replace (C_size_t z + 2 ^ 63)
      with (C_size_t z - 2 ^ 63 + 1 * 2 ^ 64) in Hz by lia.
    rewrite Z_mod_plus_full, Z.mod_small in Hz; lia.
Qed.

Lemma len_nonneg (s : list byte) : 0 <= len s.
Proof. unfold len. lia. Qed.

Lemma len_store (data s : list byte) : len (store data s) = len s.
Proof.
  unfold len, store. f_equal.
  rewrite length_firstn, length_app, length_skipn. lia.
Qed.

Lemma store_nil (s : list byte) : store [] s = s.
Proof. unfold store. cbn. apply firstn_all. Qed.

Lemma len_make (n : Z) : 0 <= n -> len (make n) = n.
Proof. intros Hn. unfold len, make. rewrite repeat_length. lia. Qed.

(** ** Loops *)

Lemma loop_S {W St R : Type} (fuel : nat) (body : St -> M W (St + R))
    (s : St) (w : W) :
  loop (S fuel) body s w =
  match body s w with
  | Returned (inl s') w' => loop fuel body s' w'
  | Returned (inr r) w' => Returned r w'
  | Panicked p w' => Panicked p w'
  | OutOfBounds w' => OutOfBounds w'
  | OutOfFuel => OutOfFuel
  end.
Proof. reflexivity. Qed.

(** Rounds that go round again only use up fuel. *)
Lemma rounds_loop {W St R : Type} (body : St -> M W (St + R)) (k : nat)
    (s s' : St) (w w' : W) :
  rounds body k s w s' w' ->
  forall fuel, loop (k + fuel) body s w = loop fuel body s' w'.
Proof.
  induction 1 as [s w | k s w s1 w1 s' w' Hbody _ IH]; intros fuel.
  - reflexivity.
  - cbn [Nat.add]. rewrite loop_S, Hbody. apply IH.
Qed.

(** A result does not depend on the fuel left over. *)
Lemma loop_more_fuel {W St R : Type} (body : St -> M W (St + R)) (fuel : nat) :
  forall (s : St) (w w' : W) (r : R),
    loop fuel body s w = Returned r w' ->
    forall extra, loop (fuel + extra) body s w = Returned r w'.
Proof.
  induction fuel as [| fuel IH]; intros s w w' r Hrun extra.
  - discriminate Hrun.
  - cbn [Nat.add]. rewrite loop_S in *.
    destruct (body s w) as [[s1 | r1] w1 | | |]; try discriminate Hrun.
    + apply IH. exact Hrun.
    + exact Hrun.
Qed.

(** ** Decoder: Read, Seek *)

Section DecoderProps.
Context {S H : Type} {R : Reader S} {E : Engine H}.

Local Abbreviation W := (World S H).

Lemma addr0_cons (buf : list byte) (w : W) :
  buf <> [] -> addr0 buf w = Returned tt w.
Proof. destruct buf; [congruence | reflexivity]. Qed.

Lemma native_read_eq (buf : list byte) (size : Z) (w : W) rc written done h' :
  mpg123_read (handle w) size = (rc, written, done, h') ->
  len written <= len buf ->
  native_read buf size w =
  Returned (C_int rc, store written buf, C_size_t done)
           (mkWorld (src w) h' (call_mpg123_read (len buf) size :: calls w)).
Proof.
  intros Hread Hfit. unfold native_read. rewrite Hread.
  destruct (len buf <? len written) eqn:Hlt; [| reflexivity].
  apply Z.ltb_lt in Hlt. lia.
Qed.

Lemma read_result_DONE (buf : list byte) (done : Z) (w : W) :
  Decoder.read_result C.MPG123_DONE buf done w =
  Returned (buf, int done, Some EOF) w.
Proof. reflexivity. Qed.

Lemma read_result_OK (buf : list byte) (done : Z) (w : W) :
  Decoder.read_result C.MPG123_OK buf done w =
  Returned (buf, int done, None) w.
Proof. reflexivity. Qed.

Lemma read_result_other (rc : Z) (buf : list byte) (done : Z) (w : W) :
  rc <> C.MPG123_DONE -> rc <> C.MPG123_OK ->
  Decoder.read_result rc buf done w =
  Returned (buf, int done,
            Some (Errorf ("mpg123 error: " ++ mpg123_strerror (handle w))))
           (mkWorld (src w) (handle w) (call_mpg123_strerror :: calls w)).
Proof.
  intros Hd Ho. unfold Decoder.read_result.
  apply Z.eqb_neq in Hd, Ho. rewrite Hd, Ho. reflexivity.
Qed.

(** C7.  [Decoder.Read] on a non-empty buffer hands back the count the
    engine stored in [*done].  The error is the package value [EOF]
    exactly when the engine's return code is MPG123_DONE, [nil] when it is
    MPG123_OK, and for every other code a fresh error made of the engine's
    error string; [EOF] is none of those errors.  The count is the
    engine's own whenever it lies within the buffer. *)
Theorem Decoder_Read_status (buf : list byte) (w : W)
    (rc done : Z) (written : list byte) (h' : H) :
  buf <> [] ->
  mpg123_read (handle w) (C_size_t (len buf)) = (rc, written, done, h') ->
  len written <= len buf ->
  let w1 := mkWorld (src w) h'
              (call_mpg123_read (len buf) (C_size_t (len buf)) :: calls w) in
  let w2 := mkWorld (src w) h' (call_mpg123_strerror :: calls w1) in
  let buf' := store written buf in
  let n := int (C_size_t done) in
  (C_int rc = C.MPG123_DONE ->
     Decoder.Read buf w = Returned (buf', n, Some EOF) w1)
  /\ (C_int rc = C.MPG123_OK ->
        Decoder.Read buf w = Returned (buf', n, None) w1)
  /\ (C_int rc <> C.MPG123_DONE -> C_int rc <> C.MPG123_OK ->
        Decoder.Read buf w =
        Returned (buf', n,
                  Some (Errorf ("mpg123 error: " ++ mpg123_strerror h'))) w2)
  /\ (status (Decoder.Read buf w) = Some (n, Some EOF)
        <-> C_int rc = C.MPG123_DONE)
  /\ (forall msg : string, EOF <> Errorf msg)
  /\ (0 <= done <= len buf -> len buf <= max_int -> n = done).
Proof.
  intros Hbuf Hread Hfit w1 w2 buf' n.
  assert (Hrun : Decoder.Read buf w =
                 Decoder.read_result (C_int rc) buf' (C_size_t done) w1).
  { unfold Decoder.Read, bind. rewrite (addr0_cons buf w Hbuf).
    rewrite (native_read_eq buf _ w _ _ _ _ Hread Hfit). reflexivity. }
  assert (Hdone : C_int rc = C.MPG123_DONE ->
                  Decoder.Read buf w = Returned (buf', n, Some EOF) w1).
  { intros Hrc. rewrite Hrun, Hrc. apply read_result_DONE. }
  assert (Hok : C_int rc = C.MPG123_OK ->
                Decoder.Read buf w = Returned (buf', n, None) w1).
  { intros Hrc. rewrite Hrun, Hrc. apply read_result_OK. }
  assert (Herr : C_int rc <> C.MPG123_DONE -> C_int rc <> C.MPG123_OK ->
                 Decoder.Read buf w =
                 Returned (buf', n,
                   Some (Errorf ("mpg123 error: " ++ mpg123_strerror h'))) w2).
  { intros Hd Ho. rewrite Hrun. apply (read_result_other _ buf' (C_size_t done) w1 Hd Ho). }
  repeat split; try assumption.
  - intros Hst.
    destruct (Z.eq_dec (C_int rc) C.MPG123_DONE) as [Hd | Hd]; [exact Hd |].
    destruct (Z.eq_dec (C_int rc) C.MPG123_OK) as [Ho | Ho].
    + rewrite (Hok Ho) in Hst. discriminate Hst.
    + rewrite (Herr Hd Ho) in Hst. discriminate Hst.
  - intros Hrc. rewrite (Hdone Hrc). reflexivity.
  - discriminate.
  - intros Hd Hmax. unfold n, max_int in *.
    rewrite C_size_t_small by lia. apply int_small. lia.
Qed.

(** C10.  [Decoder.Seek] makes one call of mpg123_seek and hands back the
    value that call returned, converted to int64, with a [nil] error:
    whatever the offset, the whence and the value, negative error codes
    included. *)
Theorem Seek_error_always_nil (offset whence : Z) (w : W) :
  Decoder.Seek offset whence w =
  Returned
    (int64 (C_off_t (fst (mpg123_seek (handle w) (C_off_t offset)
                                      (C_int whence)))),
     None)
    (mkWorld (src w)
       (snd (mpg123_seek (handle w) (C_off_t offset) (C_int whence)))
       (call_mpg123_seek (C_off_t offset) (C_int whence) :: calls w)).
Proof.
  unfold Decoder.Seek, bind, native_seek, ret.
  destruct (mpg123_seek (handle w) (C_off_t offset) (C_int whence))
    as [pos h']. reflexivity.
Qed.

End DecoderProps.

(** ** Decoder: ReadAudioFrames, DecodeSamples *)

Section FramesProps.
Context {S H : Type} {R : Reader S} {E : Engine H}.

Local Abbreviation W := (World S H).

Lemma int_C_int (z : Z) : int (C_int z) = C_int z.
Proof. apply int_small. pose proof (C_int_range z). lia. Qed.

Lemma C_int_idem (z : Z) : C_int (C_int z) = C_int z.
Proof. apply C_int_small. apply C_int_range. Qed.

(** [GetEncodingBitsPerSample(enc) / 8] is the engine's sample size. *)
Lemma bytesPerSample_encsize (enc : Z) :
  div (Decoder.GetEncodingBitsPerSample enc) 8 =
  C_int (mpg123_encsize (C_int enc)).
Proof.
  unfold Decoder.GetEncodingBitsPerSample, div, mul.
  rewrite int_C_int.
  pose proof (C_int_range (mpg123_encsize (C_int enc))) as Hx.
  set (x := C_int (mpg123_encsize (C_int enc))) in *.
  rewrite (int_small (8 * x)) by lia.
  replace (8 * x) with (x * 8) by lia.
  rewrite Z.quot_mul by lia.
  apply int_small. lia.
Qed.

(** The product of three [int]s, as the [size_t] handed to the engine. *)
Lemma C_size_t_mul3 (a b c : Z) :
  C_size_t (mul (mul a b) c) = (a * b * c) mod 2 ^ 64.
Proof.
  unfold mul. rewrite C_size_t_int.
  pose proof (C_size_t_int (a * b)) as Hab.
  unfold C_size_t, wrapu in *.
  rewrite <- Z.mul_mod_idemp_l by lia.
  rewrite Hab.
  rewrite Z.mul_mod_idemp_l by lia.
  reflexivity.
Qed.

Lemma ReadAudioFrames_unfold (frames : Z) (buf : list byte) (w : W)
    (rate chans enc : Z) (h1 : H) :
  mpg123_getformat (handle w) = (rate, chans, enc, h1) ->
  Decoder.ReadAudioFrames frames buf w =
  (addr0 buf ;;
   '(err, buf', done) <- native_read buf (framesToBytes enc frames chans) ;;
   Decoder.read_result err buf' done)
    (mkWorld (src w) h1 (call_mpg123_getformat :: calls w)).
Proof.
  intros Hfmt.
  unfold Decoder.ReadAudioFrames, Decoder.GetFormat, native_getformat.
  unfold bind at 1 2. rewrite Hfmt. unfold ret at 1.
  rewrite bytesPerSample_encsize, C_size_t_mul3.
  rewrite !int_C_int, C_int_idem.
  reflexivity.
Qed.

(** The request of [ReadAudioFrames]: [bytesPerSample * frames * channels]
    bytes, the product taken in [int] and [size_t] arithmetic from the
    format the engine reports (exact whenever it fits).  [len(buf)] takes no
    part in it.  The index expression [buf[0]] panics on an empty buffer
    before the native read; on any other buffer the native read is issued
    with that count, whatever the length of the buffer, and the call stays
    within the buffer only if the engine happens to store no more than
    [len(buf)] bytes. *)
Lemma ReadAudioFrames_request (frames : Z) (buf : list byte) (w : W)
    (rate chans enc : Z) (h1 : H) :
  mpg123_getformat (handle w) = (rate, chans, enc, h1) ->
  let w1 := mkWorld (src w) h1 (call_mpg123_getformat :: calls w) in
  let bytesPerSample := C_int (mpg123_encsize (C_int enc)) in
  let size := framesToBytes enc frames chans in
  (0 <= bytesPerSample * frames * C_int chans < 2 ^ 64 ->
     size = bytesPerSample * frames * C_int chans)
  /\ (buf = [] ->
        Decoder.ReadAudioFrames frames buf w = Panicked index_out_of_range w1)
  /\ (buf <> [] ->
      forall (rc done : Z) (written : list byte) (h2 : H),
        mpg123_read h1 size = (rc, written, done, h2) ->
        let w2 := mkWorld (src w) h2
                    (call_mpg123_read (len buf) size :: calls w1) in
        (len buf < len written ->
           Decoder.ReadAudioFrames frames buf w = OutOfBounds w2)
        /\ (len written <= len buf ->
              Decoder.ReadAudioFrames frames buf w =
              Decoder.read_result (C_int rc) (store written buf)
                                  (C_size_t done) w2)).
Proof.
  intros Hfmt w1 bytesPerSample size.
  pose proof (ReadAudioFrames_unfold frames buf w rate chans enc h1 Hfmt)
    as Hrun.
  fold w1 size in Hrun.
  split; [| split].
  - intros Hfit. unfold size, framesToBytes. fold bytesPerSample.
    apply Z.mod_small. exact Hfit.
  - intros Hnil. rewrite Hrun. subst buf. reflexivity.
  - intros Hbuf rc done written h2 Hread w2. rewrite Hrun.
    unfold bind. rewrite (addr0_cons buf w1 Hbuf).
    split.
    + intros Hover. unfold native_read. cbn [handle src calls w1].
      rewrite Hread.
      apply Z.ltb_lt in Hover. rewrite Hover. reflexivity.
    + intros Hfit.
      rewrite (native_read_eq buf size w1 rc written done h2 Hread Hfit).
      reflexivity.
Qed.

(** What [DecodeSamples] makes of the result of [ReadAudioFrames]: the
    byte count divided by the constant 4, never an error. *)
Lemma DecodeSamples_quarter (samples : Z) (audio : list byte) (w : W)
    (b : list byte) (rLen : Z) (err : option error) (w' : W) :
  Decoder.ReadAudioFrames samples audio w = Returned (b, rLen, err) w' ->
  Decoder.DecodeSamples samples audio w =
  Returned (b, if err_is err EOF then 0 else div rLen 4, None) w'.
Proof.
  intros Hrun. unfold Decoder.DecodeSamples, bind. rewrite Hrun.
  destruct (err_is err EOF); reflexivity.
Qed.

End FramesProps.

(** ** Decoder: Decode *)

(** Case analysis on every [match] and [if] of a computation that is known
    to have produced a given outcome. *)
Ltac run_in Hrun :=
  repeat
    match type of Hrun with
    | context [match ?x with _ => _ end] =>
        let E := fresh "E" in destruct x eqn:E; try discriminate Hrun
    end.

Section DecodeProps.
Context {S H : Type} {R : Reader S} {E : Engine H}.

Local Abbreviation W := (World S H).

Lemma mpg123_error_eq (w : W) :
  Decoder.mpg123_error w =
  Returned (Some (Errorf ("mpg123 error: " ++ mpg123_strerror (handle w))))
           (mkWorld (src w) (handle w) (call_mpg123_strerror :: calls w)).
Proof. reflexivity. Qed.

(** After the drain loop has stopped on MPG123_ERR the accumulated bytes
    [b] are dropped. *)
Lemma Decode_finish_ERR (b : list byte) (w : W) :
  Decoder.Decode_finish (C.MPG123_ERR, b) w =
  Returned ([], Some (Errorf ("mpg123 error: " ++ mpg123_strerror (handle w))))
           (mkWorld (src w) (handle w)
              (call_mpg123_strerror :: call_log :: calls w)).
Proof. reflexivity. Qed.

Lemma Decode_finish_error_nil (r : Z * list byte) (w w' : W)
    (bs : list byte) (e : error) :
  Decoder.Decode_finish r w = Returned (bs, Some e) w' -> bs = [].
Proof.
  destruct r as [rc b]. unfold Decoder.Decode_finish.
  destruct (rc =? C.MPG123_ERR).
  - cbn. intros Hrun. injection Hrun as Hbs _ _. symmetry. exact Hbs.
  - cbn. discriminate.
Qed.

Lemma Decode_first_early_nil (buf : list byte) (w w' : W)
    (bs : list byte) (e : option error) :
  Decoder.Decode_first buf w = Returned (inr (bs, e)) w' -> bs = [].
Proof.
  unfold Decoder.Decode_first, bind, ret, raise, slice_to.
  intros Hrun. run_in Hrun; try discriminate Hrun.
  all: unfold ret in *; try discriminate Hrun.
  all: try (injection Hrun as Hbs _ _; symmetry; exact Hbs).
Qed.

(** C5, as the code has it.  When the drain loop of [Decode] stops on the
    engine's hard error MPG123_ERR, [Decode] returns a [nil] slice together
    with the error made of the engine's error string: the bytes [b]
    accumulated so far are discarded.  More generally, whenever [Decode]
    returns a non-nil error the slice it returns is [nil]. *)
Theorem Decode_hard_error_returns_nil (fuel : nat) (buf : list byte) (w : W) :
  (forall (w2 : W) (b : list byte),
      Decoder.Decode_drained fuel buf w = Returned (inr (C.MPG123_ERR, b)) w2 ->
      Decoder.Decode fuel buf w =
      Returned
        ([], Some (Errorf ("mpg123 error: " ++ mpg123_strerror (handle w2))))
        (mkWorld (src w2) (handle w2)
           (call_mpg123_strerror :: call_log :: calls w2)))
  /\ (forall (bs : list byte) (e : error) (w' : W),
         Decoder.Decode fuel buf w = Returned (bs, Some e) w' -> bs = []).
Proof.
  split.
  - intros w2 b Hdrained.
    unfold Decoder.Decode, bind. rewrite Hdrained.
    apply Decode_finish_ERR.
  - intros bs e w' Hrun. unfold Decoder.Decode, bind in Hrun.
    destruct (Decoder.Decode_drained fuel buf w) as [r w2 | | |] eqn:Hdrained;
      try discriminate Hrun.
    destruct r as [[bs0 e0] | r].
    + unfold ret in Hrun. injection Hrun as Hbs He Hw. subst bs0.
      unfold Decoder.Decode_drained, bind in Hdrained.
      destruct (Decoder.Decode_first buf w) as [first w1 | | |] eqn:Hfirst;
        try discriminate Hdrained.
      destruct first as [st | [bs1 e1]].
      * destruct (loop fuel Decoder.Decode_drain st w1) as [r w3 | | |];
          discriminate Hdrained.
      * unfold ret in Hdrained. injection Hdrained as Hbs _ _. subst bs1.
        exact (Decode_first_early_nil buf w w1 bs e1 Hfirst).
    + exact (Decode_finish_error_nil r w2 w' bs e Hrun).
Qed.

End DecodeProps.

(** ** DecoderReader: one round of Read *)

Section ReaderProps.
Context {S H : Type} {R : Reader S} {E : Engine H}.

Local Abbreviation W := (World S H).

Lemma Nuke_eq (w : W) : DecoderReader.Nuke w = Returned tt (nuked w).
Proof.
  unfold DecoderReader.Nuke, Decoder.Close, bind, native_close, nuked.
  destruct (mpg123_close (handle w)) as [rc h'].
  destruct (C_int rc =? C.MPG123_OK); reflexivity.
Qed.

Lemma nuked_src (w : W) : src (nuked w) = src w.
Proof. unfold nuked. destruct (mpg123_close (handle w)). reflexivity. Qed.

Lemma nuked_handle (w : W) :
  handle (nuked w) = snd (mpg123_close (handle w)).
Proof. unfold nuked. destruct (mpg123_close (handle w)). reflexivity. Qed.

Lemma nuked_calls (w : W) :
  exists cs, calls (nuked w) = cs ++ call_mpg123_close :: calls w.
Proof.
  unfold nuked. destruct (mpg123_close (handle w)) as [rc h'].
  eexists. reflexivity.
Qed.

(** The feeding half.  An early return happens only in paranoid mode, on
    an error of the source, after [Nuke]. *)
Lemma Read_feed_early (dr : DecoderReader.t) (buf : list byte) (n m : Z)
    (err0 e : option error) (w w1 : W) :
  DecoderReader.Read_feed dr buf n err0 w = Returned (inr (m, e)) w1 ->
  DecoderReader.paranoid dr = true /\ m = 0 /\ e = err0 /\ err0 <> None
  /\ w1 = nuked w.
Proof.
  unfold DecoderReader.Read_feed. destruct err0 as [e0 |].
  - destruct (DecoderReader.paranoid dr).
    + unfold bind. rewrite Nuke_eq. unfold ret. intros Hrun.
      injection Hrun as Hm He Hw. subst. repeat split; congruence.
    + unfold ret. discriminate.
  - unfold bind. intros Hrun. run_in Hrun.
    all: unfold ret, bind, log, record in Hrun; discriminate Hrun.
Qed.

(** [Feed] returns [nil] or a fresh error made of the engine's string. *)
Lemma Feed_result (buf : list byte) (ferr : option error) (w w' : W) :
  Decoder.Feed buf w = Returned ferr w' ->
  ferr = None \/ exists msg, ferr = Some (Errorf msg).
Proof.
  unfold Decoder.Feed, bind. intros Hrun.
  destruct (addr0 buf w) as [[] w1 | | |]; try discriminate Hrun.
  destruct (native_feed buf w1) as [rc w2 | | |]; try discriminate Hrun.
  destruct (negb (rc =? C.MPG123_OK)).
  - rewrite mpg123_error_eq in Hrun. injection Hrun as Hferr _.
    right. eexists. symmetry. exact Hferr.
  - unfold ret in Hrun. injection Hrun as Hferr _. left. congruence.
Qed.

Lemma Feed_result_not_EOF (buf : list byte) (ferr : option error) (w w' : W) :
  Decoder.Feed buf w = Returned ferr w' -> err_is ferr io_EOF = false.
Proof.
  intros Hrun. destruct (Feed_result buf ferr w w' Hrun) as [-> | [msg ->]];
    reflexivity.
Qed.

(** When the round goes on, [err] is the error of the source in lenient
    mode, or what [Feed] returned: [nil] or a fresh error, never
    [io.EOF]. *)
Lemma Read_feed_goes_on (dr : DecoderReader.t) (buf : list byte) (n : Z)
    (err0 err : option error) (w w1 : W) :
  DecoderReader.Read_feed dr buf n err0 w = Returned (inl err) w1 ->
  (err0 <> None /\ DecoderReader.paranoid dr = false /\ err = err0 /\ w1 = w)
  \/ (err0 = None /\ err_is err io_EOF = false).
Proof.
  unfold DecoderReader.Read_feed. destruct err0 as [e0 |].
  - destruct (DecoderReader.paranoid dr).
    + unfold bind. rewrite Nuke_eq. unfold ret. discriminate.
    + unfold ret. intros Hrun. injection Hrun as He Hw. subst.
      left. repeat split; congruence.
  - intros Hrun. right. split; [reflexivity |].
    unfold bind in Hrun.
    destruct (slice_to buf n w) as [chunk w2 | | |]; try discriminate Hrun.
    destruct (Decoder.Feed chunk w2) as [ferr w3 | | |] eqn:Hfeed;
      try discriminate Hrun.
    apply Feed_result_not_EOF in Hfeed.
    destruct ferr as [e |].
    + destruct (log w3) as [[] w4 | | |]; try discriminate Hrun.
      unfold ret in Hrun. injection Hrun as He _. subst err. exact Hfeed.
    + unfold ret in Hrun. injection Hrun as He _. subst err. reflexivity.
Qed.

(** Acknowledging a new format always returns and leaves the source
    alone. *)
Lemma new_format_eq (msg : Z) (w : W) :
  exists w' cs,
    DecoderReader.new_format msg w = Returned tt w'
    /\ src w' = src w /\ calls w' = cs ++ calls w
    /\ (msg <> C.MPG123_NEW_FORMAT -> w' = w).
Proof.
  unfold DecoderReader.new_format.
  destruct (msg =? C.MPG123_NEW_FORMAT) eqn:Hmsg.
  - unfold bind, Decoder.GetFormat, bind, native_getformat.
    destruct (mpg123_getformat (handle w)) as [[[rate chans] enc] h'].
    eexists. exists [call_log; call_mpg123_getformat].
    cbn. repeat split.
    apply Z.eqb_eq in Hmsg. congruence.
  - exists w, []. repeat split.
Qed.

(** The reading half returns either a positive count with a [nil] error,
    or a zero count with [io.EOF] when [err] is [io.EOF]. *)
Lemma Read_output_returns (buf bytes b : list byte) (err e : option error)
    (n : Z) (w w' : W) :
  DecoderReader.Read_output buf bytes err w = Returned (inr (b, n, e)) w' ->
  exists rc written done h',
    mpg123_read (handle w) (C_size_t (len bytes)) = (rc, written, done, h')
    /\ n = int (C_size_t done)
    /\ ((0 < C_size_t done /\ e = None)
        \/ (C_size_t done = 0 /\ e = Some io_EOF
            /\ err_is err io_EOF = true)).
Proof.
  unfold DecoderReader.Read_output, bind. intros Hrun.
  destruct (addr0 bytes w) as [[] w0 | | |] eqn:Haddr; try discriminate Hrun.
  assert (w0 = w) as ->.
  { destruct bytes; [discriminate Haddr |].
    unfold addr0, ret in Haddr. congruence. }
  unfold native_read in Hrun.
  destruct (mpg123_read (handle w) (C_size_t (len bytes)))
    as [[[rc written] done] h'] eqn:Hread.
  destruct (len bytes <? len written); try discriminate Hrun.
  set (w1 := mkWorld (src w) h' _) in Hrun.
  destruct (new_format_eq (C_int rc) w1) as (w2 & cs & Hnf & _).
  rewrite Hnf in Hrun.
  exists rc, written, done, h'. split; [reflexivity |].
  destruct (DecoderReader.listed (C_int rc)); [| discriminate Hrun].
  destruct (0 <? C_size_t done) eqn:Hpos.
  - unfold ret in Hrun. injection Hrun as _ Hn He _. subst n e.
    apply Z.ltb_lt in Hpos. split; [reflexivity | left; split; congruence].
  - destruct (err_is err io_EOF) eqn:Heof; [| discriminate Hrun].
    rewrite Nuke_eq in Hrun. unfold ret in Hrun.
    injection Hrun as _ Hn He _. subst n e.
    apply Z.ltb_ge in Hpos. pose proof (C_size_t_range done).
    split; [reflexivity | right; repeat split; lia].
Qed.

(** When the reading half asks for another round, the two slices keep
    their lengths. *)
Lemma Read_output_goes_on (buf bytes buf1 bytes1 : list byte)
    (err : option error) (w w' : W) :
  DecoderReader.Read_output buf bytes err w = Returned (inl (buf1, bytes1)) w' ->
  buf1 = buf /\ len bytes1 = len bytes.
Proof.
  unfold DecoderReader.Read_output, bind. intros Hrun.
  destruct (addr0 bytes w) as [[] w0 | | |]; try discriminate Hrun.
  unfold native_read in Hrun.
  destruct (mpg123_read (handle w0) (C_size_t (len bytes)))
    as [[[rc written] done] h'].
  destruct (len bytes <? len written); try discriminate Hrun.
  set (w1 := mkWorld (src w0) h' _) in Hrun.
  destruct (new_format_eq (C_int rc) w1) as (w2 & cs & Hnf & _).
  rewrite Hnf in Hrun.
  destruct (DecoderReader.listed (C_int rc)).
  - destruct (0 <? C_size_t done); [discriminate Hrun |].
    destruct (err_is err io_EOF).
    + rewrite Nuke_eq in Hrun. discriminate Hrun.
    + unfold ret in Hrun. injection Hrun as Hb Hbs _. subst buf1 bytes1.
      split; [reflexivity | apply len_store].
  - unfold ret in Hrun. injection Hrun as Hb Hbs _. subst buf1 bytes1.
    split; [reflexivity | apply len_store].
Qed.

Lemma src_Read_eq (buf : list byte) (w : W) (data : list byte) (n : Z)
    (err : option error) (s' : S) :
  io_Read (src w) (len buf) = (data, n, err, s') ->
  src_Read buf w =
  Returned (store data buf, int n, err)
           (mkWorld s' (handle w) (call_src_Read (len buf) :: calls w)).
Proof. intros Hsrc. unfold src_Read. rewrite Hsrc. reflexivity. Qed.

(** The three ways a round returns from [Read]. *)
Lemma Read_body_returns (dr : DecoderReader.t) (buf bytes b : list byte)
    (n : Z) (err : option error) (w w' : W) :
  DecoderReader.Read_body dr (buf, bytes) w = Returned (inr (b, n, err)) w' ->
  (DecoderReader.paranoid dr = true /\ n = 0 /\ exists e, err = Some e)
  \/ (exists h rc written done h',
         mpg123_read h (C_size_t (len bytes)) = (rc, written, done, h')
         /\ n = int (C_size_t done)
         /\ ((0 < C_size_t done /\ err = None)
             \/ (C_size_t done = 0 /\ err = Some io_EOF))).
Proof.
  unfold DecoderReader.Read_body, bind. intros Hrun.
  destruct (io_Read (src w) (len buf)) as [[[data m] err0] s'] eqn:Hsrc.
  rewrite (src_Read_eq buf w data m err0 s' Hsrc) in Hrun.
  set (w1 := mkWorld s' (handle w) _) in Hrun.
  destruct (DecoderReader.Read_feed dr (store data buf) (int m) err0 w1)
    as [[err1 | [n' e']] w2 | | |] eqn:Hfeed; try discriminate Hrun.
  - right. exists (handle w2).
    destruct (Read_output_returns _ _ _ _ _ _ _ _ Hrun)
      as (rc & written & done & h' & Hread & Hn & Hcases).
    exists rc, written, done, h'. split; [exact Hread |].
    split; [exact Hn |].
    destruct Hcases as [Hpos | (Hz & He & _)]; [left | right]; auto.
  - left. unfold ret in Hrun. injection Hrun as _ Hn He _. subst n' e'.
    destruct (Read_feed_early _ _ _ _ _ _ _ _ Hfeed)
      as (Hpar & Hn & He & Hsome & _).
    subst. destruct err0 as [e0 |]; [| congruence].
    split; [exact Hpar |]. split; [reflexivity |]. exists e0. reflexivity.
Qed.

Lemma Read_body_goes_on (dr : DecoderReader.t) (buf bytes buf1 bytes1 : list byte)
    (w w' : W) :
  DecoderReader.Read_body dr (buf, bytes) w = Returned (inl (buf1, bytes1)) w' ->
  len buf1 = len buf /\ len bytes1 = len bytes.
Proof.
  unfold DecoderReader.Read_body, bind. intros Hrun.
  destruct (io_Read (src w) (len buf)) as [[[data m] err0] s'] eqn:Hsrc.
  rewrite (src_Read_eq buf w data m err0 s' Hsrc) in Hrun.
  set (w1 := mkWorld s' (handle w) _) in Hrun.
  destruct (DecoderReader.Read_feed dr (store data buf) (int m) err0 w1)
    as [[err1 | [n' e']] w2 | | |]; try discriminate Hrun.
  destruct (Read_output_goes_on _ _ _ _ _ _ _ Hrun) as [-> Hlen].
  split; [apply len_store | exact Hlen].
Qed.

(** Every return of the loop is a return of one of its rounds, whose
    caller slice has the length of the first one. *)
Lemma Read_loop_returns (dr : DecoderReader.t) (fuel : nat) :
  forall (buf bytes b : list byte) (n : Z) (err : option error) (w w' : W),
    loop fuel (DecoderReader.Read_body dr) (buf, bytes) w
    = Returned (b, n, err) w' ->
    exists buf1 bytes1 w1,
      len bytes1 = len bytes
      /\ DecoderReader.Read_body dr (buf1, bytes1) w1
         = Returned (inr (b, n, err)) w'.
Proof.
  induction fuel as [| fuel IH]; intros buf bytes b n err w w' Hrun.
  - discriminate Hrun.
  - rewrite loop_S in Hrun.
    destruct (DecoderReader.Read_body dr (buf, bytes) w)
      as [[[buf1 bytes1] | r] w1 | | |] eqn:Hbody; try discriminate Hrun.
    + destruct (Read_body_goes_on _ _ _ _ _ _ _ Hbody) as [_ Hlen].
      destruct (IH _ _ _ _ _ _ _ Hrun) as (buf2 & bytes2 & w2 & Hlen2 & Hret).
      exists buf2, bytes2, w2. split; [congruence | exact Hret].
    + injection Hrun as -> ->. exists buf, bytes, w.
      split; [reflexivity | exact Hbody].
Qed.

(** C1.  A call of [DecoderReader.Read] that returns never returns
    [(0, nil)], whatever the reader and the engine.  With an engine that
    keeps [*done] within the size it was given, the call returns either a
    positive count with a [nil] error, or a zero count with [io.EOF], or,
    in paranoid mode, a zero count with the error of the input stream. *)
Theorem Read_never_zero_nil (dr : DecoderReader.t) (bytes b : list byte)
    (fuel : nat) (n : Z) (err : option error) (w w' : W) :
  DecoderReader.Read fuel dr bytes w = Returned (b, n, err) w' ->
  (n, err) <> (0, None)
  /\ (read_within E ->
      len bytes <= max_int ->
      (0 < n /\ err = None)
      \/ (n = 0 /\ err = Some io_EOF)
      \/ (n = 0 /\ DecoderReader.paranoid dr = true
          /\ exists e, err = Some e)).
Proof.
  intros Hrun. unfold DecoderReader.Read in Hrun.
  destruct (Read_loop_returns dr fuel _ _ _ _ _ _ _ Hrun)
    as (buf1 & bytes1 & w1 & Hlen & Hbody).
  destruct (Read_body_returns _ _ _ _ _ _ _ _ Hbody)
    as [(Hpar & Hn & e & He) | (h & rc & written & done & h' & Hread & Hn & Hc)].
  - split; [intros Heq; congruence |].
    intros _ _. right. right. eauto.
  - destruct Hc as [[Hpos He] | [Hz He]].
    + split.
      * intros Heq. injection Heq as Hn0 _. rewrite Hn in Hn0.
        apply int_C_size_t_zero in Hn0. lia.
      * intros Hengine Hmax. left. split; [| exact He].
        pose proof (len_nonneg bytes1) as Hnn. unfold max_int in Hmax.
        rewrite C_size_t_small in Hread by lia.
        destruct (Hengine _ _ _ _ _ _ Hread Hnn) as [Hdone _].
        rewrite C_size_t_small in Hpos, Hn by lia.
        rewrite int_small in Hn by lia. lia.
    + split; [intros Heq; congruence |].
      intros _ _. right. left. split; [| exact He].
      rewrite Hn, Hz. reflexivity.
Qed.

(** ** DecoderReader: what a round does *)

(** The reading half on a non-empty slice, for an engine answer that fits
    the slice. *)
Lemma Read_output_eq (buf bytes : list byte) (err : option error) (w : W)
    (rc done : Z) (written : list byte) (h' : H) :
  bytes <> [] ->
  mpg123_read (handle w) (C_size_t (len bytes)) = (rc, written, done, h') ->
  len written <= len bytes ->
  let w1 := mkWorld (src w) h'
              (call_mpg123_read (len bytes) (C_size_t (len bytes)) :: calls w) in
  let bytes' := store written bytes in
  exists w2 cs,
    src w2 = src w /\ calls w2 = cs ++ calls w1
    /\ (C_int rc <> C.MPG123_NEW_FORMAT -> w2 = w1)
    /\ DecoderReader.Read_output buf bytes err w =
       if DecoderReader.listed (C_int rc) then
         if 0 <? C_size_t done then
           Returned (inr (bytes', int (C_size_t done), None)) w2
         else if err_is err io_EOF then
           Returned (inr (bytes', int (C_size_t done), Some io_EOF)) (nuked w2)
         else Returned (inl (buf, bytes')) w2
       else Returned (inl (buf, bytes')) w2.
Proof.
  intros Hbytes Hread Hfit w1 bytes'.
  destruct (new_format_eq (C_int rc) w1) as (w2 & cs & Hnf & Hsrc & Hcalls & Hsame).
  exists w2, cs. repeat split; try assumption.
  unfold DecoderReader.Read_output, bind.
  rewrite (addr0_cons bytes w Hbytes).
  rewrite (native_read_eq bytes _ w rc written done h' Hread Hfit).
  fold w1 bytes'. rewrite Hnf.
  destruct (DecoderReader.listed (C_int rc)); [| reflexivity].
  destruct (0 <? C_size_t done); [reflexivity |].
  destruct (err_is err io_EOF); [| reflexivity].
  rewrite Nuke_eq. reflexivity.
Qed.

(** In paranoid mode a round in which the source reports an error closes
    the decoder and returns that error: nothing is fed, nothing is read. *)
Lemma Read_body_paranoid (dr : DecoderReader.t) (buf bytes data : list byte)
    (n : Z) (e : error) (s' : S) (w : W) :
  DecoderReader.paranoid dr = true ->
  io_Read (src w) (len buf) = (data, n, Some e, s') ->
  DecoderReader.Read_body dr (buf, bytes) w =
  Returned (inr (bytes, 0, Some e))
    (nuked (mkWorld s' (handle w) (call_src_Read (len buf) :: calls w))).
Proof.
  intros Hpar Hsrc. unfold DecoderReader.Read_body, bind.
  rewrite (src_Read_eq buf w data n (Some e) s' Hsrc).
  unfold DecoderReader.Read_feed. rewrite Hpar.
  unfold bind. rewrite Nuke_eq. reflexivity.
Qed.

(** In lenient mode a round in which the source reports an error, [io.EOF]
    included, goes straight to the reading half: whatever count came with
    the error, mpg123_feed is not called. *)
Lemma Read_body_lenient_error (dr : DecoderReader.t)
    (buf bytes data : list byte) (n : Z) (e : error) (s' : S) (w : W) :
  DecoderReader.paranoid dr = false ->
  io_Read (src w) (len buf) = (data, n, Some e, s') ->
  DecoderReader.Read_body dr (buf, bytes) w =
  DecoderReader.Read_output (store data buf) bytes (Some e)
    (mkWorld s' (handle w) (call_src_Read (len buf) :: calls w)).
Proof.
  intros Hpar Hsrc. unfold DecoderReader.Read_body, bind.
  rewrite (src_Read_eq buf w data n (Some e) s' Hsrc).
  unfold DecoderReader.Read_feed. rewrite Hpar. reflexivity.
Qed.

(** X21.  A round in which the source reports [n > 0] bytes and a [nil] error
    feeds exactly those bytes; whether the feed fails or not, the round
    goes on to the reading half, with the feed's error in [err]. *)
Lemma Read_body_feeds (dr : DecoderReader.t) (buf bytes data : list byte)
    (n rc : Z) (s' : S) (h1 : H) (w : W) :
  io_Read (src w) (len buf) = (data, n, None, s') ->
  0 < int n <= len buf ->
  let chunk := firstn (Z.to_nat (int n)) (store data buf) in
  mpg123_feed (handle w) chunk = (rc, h1) ->
  let fed := call_mpg123_feed chunk :: call_src_Read (len buf) :: calls w in
  DecoderReader.Read_body dr (buf, bytes) w =
  if C_int rc =? C.MPG123_OK then
    DecoderReader.Read_output (store data buf) bytes None (mkWorld s' h1 fed)
  else
    DecoderReader.Read_output (store data buf) bytes
      (Some (Errorf ("mpg123 error: " ++ mpg123_strerror h1)))
      (mkWorld s' h1 (call_log :: call_mpg123_strerror :: fed)).
Proof.
  intros Hsrc Hn chunk Hfeed fed.
  unfold DecoderReader.Read_body, bind.
  rewrite (src_Read_eq buf w data n None s' Hsrc).
  unfold DecoderReader.Read_feed, bind, slice_to.
  rewrite len_store.
  replace (int n <? 0) with false by (symmetry; apply Z.ltb_ge; lia).
  replace (len buf <? int n) with false by (symmetry; apply Z.ltb_ge; lia).
  cbn [orb]. unfold ret at 1. fold chunk.
  assert (Hchunk : chunk <> []).
  { intros Hnil. apply (f_equal (@List.length byte)) in Hnil.
    unfold chunk in Hnil. rewrite length_firstn in Hnil.
    pose proof (len_store data buf) as Hl. unfold len in Hl, Hn.
    cbn [List.length] in Hnil. lia. }
  unfold Decoder.Feed, bind.
  rewrite (addr0_cons chunk _ Hchunk).
  unfold native_feed. cbn [handle src calls]. rewrite Hfeed.
  destruct (C_int rc =? C.MPG123_OK); reflexivity.
Qed.

(** C8.  In paranoid mode, when the rounds of a call have all gone round
    again and the input stream then reports an error [e] (at the very
    first read attempt when there was no earlier round), the call closes the
    decoder, right after that read of the stream, and returns [(0, e)]. *)
Theorem paranoid_stream_error (dr : DecoderReader.t) (bytes buf b data : list byte)
    (k fuel : nat) (n : Z) (e : error) (s' : S) (w w1 : W) :
  DecoderReader.paranoid dr = true ->
  rounds (DecoderReader.Read_body dr) k (make (64 * 1024), bytes) w (buf, b) w1 ->
  io_Read (src w1) (len buf) = (data, n, Some e, s') ->
  let w2 := mkWorld s' (handle w1) (call_src_Read (len buf) :: calls w1) in
  DecoderReader.Read (k + Datatypes.S fuel) dr bytes w
  = Returned (b, 0, Some e) (nuked w2)
  /\ handle (nuked w2) = snd (mpg123_close (handle w1))
  /\ src (nuked w2) = s'
  /\ exists cs,
       calls (nuked w2)
       = cs ++ call_mpg123_close :: call_src_Read (len buf) :: calls w1.
Proof.
  intros Hpar Hrounds Hsrc w2.
  split; [| split; [| split]].
  - unfold DecoderReader.Read.
    rewrite (rounds_loop _ k _ _ _ _ Hrounds (Datatypes.S fuel)).
    rewrite loop_S.
    rewrite (Read_body_paranoid dr buf b data n e s' w1 Hpar Hsrc).
    reflexivity.
  - exact (nuked_handle w2).
  - exact (nuked_src w2).
  - exact (nuked_calls w2).
Qed.

(** C2, as the code has it.  [DecoderReader] keeps no terminal flag: a
    call of [Read] made after the session has returned end of stream runs
    the loop like any other call, starting with a read of the input
    stream.  When that read reports an error, a paranoid session closes
    the decoder once more and returns no bytes with that error, [io.EOF]
    if the stream reports it again.  A lenient session whose stream reports
    [io.EOF] again asks the closed decoder for output; when the engine
    answers one of the codes the [switch] lists, the call returns
    [(n, nil)] with [n > 0] bytes and [(0, io.EOF)] with none. *)
Theorem Read_after_end_of_stream (dr : DecoderReader.t)
    (bytes0 b0 bytes data : list byte) (fuel0 fuel : nat) (n0 n : Z)
    (e : error) (s' : S) (w0 w : W) :
  DecoderReader.Read fuel0 dr bytes0 w0 = Returned (b0, n0, Some io_EOF) w ->
  io_Read (src w) (64 * 1024) = (data, n, Some e, s') ->
  let w1 := mkWorld s' (handle w) (call_src_Read (64 * 1024) :: calls w) in
  (DecoderReader.paranoid dr = true ->
     DecoderReader.Read (Datatypes.S fuel) dr bytes w
     = Returned (bytes, 0, Some e) (nuked w1))
  /\ (DecoderReader.paranoid dr = false ->
      e = io_EOF ->
      bytes <> [] ->
      forall (rc done : Z) (written : list byte) (h' : H),
        mpg123_read (handle w) (C_size_t (len bytes)) = (rc, written, done, h') ->
        len written <= len bytes ->
        DecoderReader.listed (C_int rc) = true ->
        exists w2 cs,
          calls w2
          = cs ++ call_mpg123_read (len bytes) (C_size_t (len bytes)) :: calls w1
          /\ DecoderReader.Read (Datatypes.S fuel) dr bytes w =
             if 0 <? C_size_t done then
               Returned (store written bytes, int (C_size_t done), None) w2
             else
               Returned (store written bytes, 0, Some io_EOF) (nuked w2)).
Proof.
  intros _ Hsrc w1.
  assert (Hlen : len (make (64 * 1024)) = 64 * 1024) by (apply len_make; lia).
  rewrite <- Hlen in Hsrc. unfold w1. rewrite <- Hlen. clear w1.
  set (buf := make (64 * 1024)) in *.
  set (w1 := mkWorld s' (handle w) (call_src_Read (len buf) :: calls w)).
  split.
  - intros Hpar. unfold DecoderReader.Read. fold buf. rewrite loop_S.
    rewrite (Read_body_paranoid dr buf bytes data n e s' w Hpar Hsrc).
    reflexivity.
  - intros Hpar He Hbytes rc done written h' Hread Hfit Hlisted. subst e.
    destruct (Read_output_eq (store data buf) bytes (Some io_EOF) w1
                rc done written h' Hbytes Hread Hfit)
      as (w2 & cs & _ & Hcalls & _ & Hout).
    exists w2, cs. split; [exact Hcalls |].
    unfold DecoderReader.Read. fold buf. rewrite loop_S.
    rewrite (Read_body_lenient_error dr buf bytes data n io_EOF s' w Hpar Hsrc).
    fold w1. rewrite Hout, Hlisted.
    destruct (0 <? C_size_t done) eqn:Hpos; [reflexivity |].
    cbn [err_is error_eqb].
    apply Z.ltb_ge in Hpos. pose proof (C_size_t_range done) as Hr.
    replace (C_size_t done) with 0 by lia. reflexivity.
Qed.

(** X22.  In lenient mode the round in which the stream reports [io.EOF] is the
    last one whenever the engine answers one of the listed codes: the
    call returns in that round. *)
Lemma Read_lenient_returns_at_EOF (dr : DecoderReader.t)
    (bytes buf b data written : list byte) (k fuel : nat) (n rc done : Z)
    (s' : S) (h' : H) (w w1 : W) :
  DecoderReader.paranoid dr = false ->
  rounds (DecoderReader.Read_body dr) k (make (64 * 1024), bytes) w (buf, b) w1 ->
  io_Read (src w1) (len buf) = (data, n, Some io_EOF, s') ->
  b <> [] ->
  mpg123_read (handle w1) (C_size_t (len b)) = (rc, written, done, h') ->
  len written <= len b ->
  DecoderReader.listed (C_int rc) = true ->
  exists r w',
    DecoderReader.Read (k + Datatypes.S fuel) dr bytes w = Returned r w'.
Proof.
  intros Hpar Hrounds Hsrc Hb Hread Hfit Hlisted.
  unfold DecoderReader.Read.
  rewrite (rounds_loop _ k _ _ _ _ Hrounds (Datatypes.S fuel)), loop_S.
  rewrite (Read_body_lenient_error dr buf b data n io_EOF s' w1 Hpar Hsrc).
  set (w2 := mkWorld s' (handle w1) (call_src_Read (len buf) :: calls w1)).
  destruct (Read_output_eq (store data buf) b (Some io_EOF) w2
              rc done written h' Hb Hread Hfit)
    as (w3 & cs & _ & _ & _ & Hout).
  rewrite Hout, Hlisted.
  destruct (0 <? C_size_t done); [eauto |].
  cbn [err_is error_eqb]. eauto.
Qed.

End ReaderProps.

(** ** The bindings at work *)

Section Runs.
Import Script Run.

Lemma Script_read_within : read_within Engine_engine.
Proof.
  intros h h' size rc done written Hread Hsize.
  cbn in Hread. unfold answer in Hread.
  destruct (reads h) as [| [rc0 bs] q].
  - injection Hread as _ <- <- _. cbn. lia.
  - injection Hread as _ <- <- _.
    unfold len. rewrite length_firstn. lia.
Qed.

(** On a failed engine and a stream at its end, a round of the lenient
    loop reads the stream, asks the engine for output and goes round
    again. *)
Lemma failed_round (buf bytes : list byte) (cs : list Call) :
  bytes <> [] ->
  DecoderReader.Read_body lenient (buf, bytes)
    (@mkWorld reader engine [] failed cs) =
  Returned (inl (buf, bytes))
    (@mkWorld reader engine [] failed
       (call_mpg123_read (len bytes) (C_size_t (len bytes))
        :: call_src_Read (len buf) :: cs)).
Proof.
  intros Hbytes.
  set (w := @mkWorld reader engine [] failed cs).
  assert (Hsrc : io_Read (src w) (len buf) = ([], 0, Some io_EOF, []))
    by reflexivity.
  rewrite (Read_body_lenient_error lenient buf bytes [] 0 io_EOF [] w
             eq_refl Hsrc).
  rewrite store_nil.
  set (w1 := @mkWorld reader engine [] failed (call_src_Read (len buf) :: cs)).
  change (mkWorld [] (handle w) (call_src_Read (len buf) :: calls w)) with w1.
  assert (Hread : mpg123_read (handle w1) (C_size_t (len bytes))
                  = (C.MPG123_ERR, [], 0, failed)) by reflexivity.
  destruct (Read_output_eq buf bytes (Some io_EOF) w1
              C.MPG123_ERR 0 [] failed Hbytes Hread (len_nonneg bytes))
    as (w2 & cs2 & _ & _ & Hsame & Hout).
  etransitivity; [exact Hout |].
  rewrite store_nil, (Hsame ltac:(discriminate)).
  reflexivity.
Qed.

Lemma failed_spins (fuel : nat) :
  forall (buf bytes : list byte) (cs : list Call),
    bytes <> [] ->
    loop fuel (DecoderReader.Read_body lenient) (buf, bytes)
         (@mkWorld reader engine [] failed cs) = OutOfFuel.
Proof.
  induction fuel as [| fuel IH]; intros buf bytes cs Hbytes.
  - reflexivity.
  - rewrite loop_S, (failed_round buf bytes cs Hbytes). apply IH. exact Hbytes.
Qed.

(** C6.  A lenient session on a stream that is at its end, with an engine
    whose mpg123_read fails: MPG123_ERR is none of the cases of the
    [switch], so every round goes round again and the call returns for no
    amount of fuel. *)
Theorem Read_lenient_spins_on_engine_error (fuel : nat) :
  DecoderReader.Read fuel lenient two (@mkWorld reader engine [] failed [])
  = OutOfFuel.
Proof.
  unfold DecoderReader.Read. apply failed_spins. discriminate.
Qed.

(** C4.  A stream hands over its last two bytes together with [io.EOF];
    the lenient round asks the engine for output without a call of
    mpg123_feed, so the two bytes never reach the decoder, and the paranoid
    round returns at once.  The same two bytes with a [nil] error are
    fed. *)
Theorem Read_drops_bytes_that_come_with_EOF :
  DecoderReader.Read 1 lenient four
    (world last_bytes (four_bytes stereo16 C.MPG123_OK))
  = Returned ([x01; x02; x03; x04], 4, None)
      (mkWorld [] (mk_engine [] [] C.MPG123_OK stereo16 0 C.MPG123_ERR)
         [call_mpg123_read 4 4; call_src_Read 65536])
  /\ DecoderReader.Read 1 paranoid four
       (world last_bytes (four_bytes stereo16 C.MPG123_OK))
     = Returned (four, 0, Some io_EOF)
         (mkWorld [] failed [call_mpg123_close; call_src_Read 65536])
  /\ DecoderReader.Read 1 lenient four
       (world [([x07; x08], 2, None)] (four_bytes stereo16 C.MPG123_OK))
     = Returned ([x01; x02; x03; x04], 4, None)
         (mkWorld [] (mk_engine [] [] C.MPG123_OK stereo16 0 C.MPG123_ERR)
            [call_mpg123_read 4 4; call_mpg123_feed [x07; x08];
             call_src_Read 65536]).
Proof. repeat split; vm_compute; reflexivity. Qed.

(** C9.  With 16-bit mono output a PCM frame is two bytes:
    [ReadAudioFrames] asks for four bytes for two frames and the engine
    delivers them, yet [DecodeSamples] reports one frame, the byte count
    divided by the constant 4.  On MPG123_DONE it reports [(0, nil)]. *)
Theorem DecodeSamples_mono_halves :
  framesToBytes (E := Engine_engine) 208 2 1 = 4
  /\ Decoder.DecodeSamples 2 four (world [] (four_bytes mono16 C.MPG123_OK))
     = Returned ([x01; x02; x03; x04], 1, None)
         (mkWorld [] (mk_engine [] [] C.MPG123_OK mono16 0 C.MPG123_ERR)
            [call_mpg123_read 4 4; call_mpg123_getformat])
  /\ Decoder.DecodeSamples 2 four (world [] (four_bytes mono16 C.MPG123_DONE))
     = Returned ([x01; x02; x03; x04], 0, None)
         (mkWorld [] (mk_engine [] [] C.MPG123_OK mono16 0 C.MPG123_ERR)
            [call_mpg123_read 4 4; call_mpg123_getformat]).
Proof. repeat split; vm_compute; reflexivity. Qed.

(** C3.  [ReadAudioFrames] has no guard on the size of the buffer.  For
    one stereo 16-bit frame it asks the engine for [2 * 1 * 2 = 4] bytes
    although the buffer holds one; nothing compares the two numbers, the
    native read is issued with [outmemsize = 4] on the one-byte buffer, and
    the engine, which has four bytes decoded, writes past its end. *)
Theorem ReadAudioFrames_no_guard :
  Decoder.ReadAudioFrames 1 [x00]
    (world [] (four_bytes stereo16 C.MPG123_OK))
  = OutOfBounds
      (mkWorld [] (mk_engine [] [] C.MPG123_OK stereo16 0 C.MPG123_ERR)
         [call_mpg123_read 1 4; call_mpg123_getformat]).
Proof. vm_compute. reflexivity. Qed.

(** C5 fails as stated: the engine decodes three bytes in two chunks and
    then reports MPG123_ERR; [Decode] returns [nil] with the error, while
    the same chunks followed by MPG123_NEED_MORE are returned. *)
Lemma Decode_discards_accumulated :
  returned (Decoder.Decode 3 [x09] (world [] breaks))
  = Some ([], Some (Errorf "mpg123 error: scripted"))
  /\ returned (Decoder.Decode 3 [x09] (world [] drains))
     = Some ([x01; x02; x03], None).
Proof. split; vm_compute; reflexivity. Qed.

(** C2 fails as stated: the loop is entered again.  The first [Read] of
    a lenient session returns end of stream and closes the decoder; the
    first round of the next [Read] reads the stream again and asks the
    closed decoder for output.  In a paranoid session whose stream reports
    [io.EOF] and then an error of its own, the first [Read] returns end of
    stream, and the next one reads the stream, closes the decoder a second
    time and returns the stream's error, not end of stream. *)
Lemma Read_again_after_end_of_stream :
  DecoderReader.Read 1 lenient two (world [] hungry)
  = Returned (two, 0, Some io_EOF) ended
  /\ world_after
       (DecoderReader.Read_body lenient (make (64 * 1024), two) ended)
     = Some (mkWorld [] failed
               (call_mpg123_read 2 2 :: call_src_Read 65536 :: calls ended))
  /\ DecoderReader.Read 1 paranoid two
       (world [([], 0, Some io_EOF); ([], 0, Some (stream_error 7))] hungry)
     = Returned (two, 0, Some io_EOF)
         (mkWorld [([], 0, Some (stream_error 7))] failed
            [call_mpg123_close; call_src_Read 65536])
  /\ DecoderReader.Read 1 paranoid two
       (mkWorld [([], 0, Some (stream_error 7))] failed
          [call_mpg123_close; call_src_Read 65536])
     = Returned (two, 0, Some (stream_error 7))
         (mkWorld [] failed
            [call_mpg123_close; call_src_Read 65536;
             call_mpg123_close; call_src_Read 65536]).
Proof. repeat split; vm_compute; reflexivity. Qed.

(** ** The theorems at concrete runs *)

(** C1 on a session whose stream delivers two bytes and whose engine has
    decoded bytes at hand. *)
Lemma Read_never_zero_nil_witness :
  read_within Engine_engine
  /\ len two <= max_int
  /\ DecoderReader.Read 1 lenient two
       (world [([x07; x08], 2, None)] (four_bytes stereo16 C.MPG123_OK))
     = Returned ([x01; x02], 2, None)
         (mkWorld [] (mk_engine [] [] C.MPG123_OK stereo16 0 C.MPG123_ERR)
            [call_mpg123_read 2 2; call_mpg123_feed [x07; x08];
             call_src_Read 65536])
  /\ (2, @None error) <> (0, None)
  /\ ((0 < 2 /\ @None error = None)
      \/ (2 = 0 /\ @None error = Some io_EOF)
      \/ (2 = 0 /\ DecoderReader.paranoid lenient = true
          /\ exists e, @None error = Some e)).
Proof.
  assert (Hmax : len two <= max_int) by (vm_compute; discriminate).
  assert (Hrun : DecoderReader.Read 1 lenient two
                   (world [([x07; x08], 2, None)]
                      (four_bytes stereo16 C.MPG123_OK))
                 = Returned ([x01; x02], 2, None)
                     (mkWorld [] (mk_engine [] [] C.MPG123_OK stereo16 0
                                    C.MPG123_ERR)
                        [call_mpg123_read 2 2; call_mpg123_feed [x07; x08];
                         call_src_Read 65536]))
    by (vm_compute; reflexivity).
  split; [exact Script_read_within |].
  split; [exact Hmax |].
  split; [exact Hrun |].
  pose proof (Read_never_zero_nil lenient two [x01; x02] 1 2 None _ _ Hrun)
    as [Hnot Hcases].
  split; [exact Hnot | exact (Hcases Script_read_within Hmax)].
Defined.

(** C7 on an engine that reports MPG123_DONE together with two bytes. *)
Lemma Decoder_Read_status_witness :
  two <> []
  /\ mpg123_read (handle (world [] (four_bytes stereo16 C.MPG123_DONE)))
       (C_size_t (len two))
     = (C.MPG123_DONE, [x01; x02], 2,
        mk_engine [] [] C.MPG123_OK stereo16 0 C.MPG123_ERR)
  /\ len [x01; x02] <= len two
  /\ Decoder.Read two (world [] (four_bytes stereo16 C.MPG123_DONE))
     = Returned (store [x01; x02] two, int (C_size_t 2), Some EOF)
         (mkWorld [] (mk_engine [] [] C.MPG123_OK stereo16 0 C.MPG123_ERR)
            [call_mpg123_read (len two) (C_size_t (len two))]).
Proof.
  assert (Hbuf : two <> []) by discriminate.
  assert (Hread :
            mpg123_read (handle (world [] (four_bytes stereo16 C.MPG123_DONE)))
              (C_size_t (len two))
            = (C.MPG123_DONE, [x01; x02], 2,
               mk_engine [] [] C.MPG123_OK stereo16 0 C.MPG123_ERR))
    by (vm_compute; reflexivity).
  assert (Hfit : len [x01; x02] <= len two) by (vm_compute; discriminate).
  split; [exact Hbuf |]. split; [exact Hread |]. split; [exact Hfit |].
  exact (proj1 (Decoder_Read_status two _ _ _ _ _ Hbuf Hread Hfit) eq_refl).
Defined.

(** C8 on a stream that fails at its first read. *)
Lemma paranoid_stream_error_witness :
  DecoderReader.paranoid paranoid = true
  /\ rounds (DecoderReader.Read_body paranoid) 0
       (make (64 * 1024), two) (world broken hungry)
       (make (64 * 1024), two) (world broken hungry)
  /\ io_Read (src (world broken hungry)) (len (make (64 * 1024)))
     = ([], 0, Some (stream_error 7), [])
  /\ DecoderReader.Read 1 paranoid two (world broken hungry)
     = Returned (two, 0, Some (stream_error 7))
         (nuked (mkWorld [] hungry [call_src_Read (len (make (64 * 1024)))])).
Proof.
  assert (Hrounds : rounds (DecoderReader.Read_body paranoid) 0
                      (make (64 * 1024), two) (world broken hungry)
                      (make (64 * 1024), two) (world broken hungry))
    by apply rounds_O.
  assert (Hsrc : io_Read (src (world broken hungry)) (len (make (64 * 1024)))
                 = ([], 0, Some (stream_error 7), []))
    by reflexivity.
  split; [reflexivity |]. split; [exact Hrounds |]. split; [exact Hsrc |].
  exact (proj1 (paranoid_stream_error paranoid two _ _ _ 0 0 _ _ _ _ _
                  eq_refl Hrounds Hsrc)).
Defined.

(** C2 on two sessions that have returned end of stream, with a stream
    that stays at its end: a paranoid one, and a lenient one on the engine
    that keeps answering MPG123_NEED_MORE. *)
Lemma Read_after_end_of_stream_witness :
  (DecoderReader.Read 1 paranoid two (world [] hungry)
   = Returned (two, 0, Some io_EOF)
       (mkWorld [] failed [call_mpg123_close; call_src_Read 65536])
   /\ DecoderReader.Read 1 paranoid two
        (mkWorld [] failed [call_mpg123_close; call_src_Read 65536])
      = Returned (two, 0, Some io_EOF)
          (nuked (mkWorld [] failed
                    [call_src_Read (64 * 1024); call_mpg123_close;
                     call_src_Read 65536])))
  /\ (DecoderReader.Read 1 lenient two (@mkWorld reader unit [] tt [])
      = Returned (two, 0, Some io_EOF) Waiting.ended
      /\ DecoderReader.listed (C_int C.MPG123_NEED_MORE) = true
      /\ exists w2 cs,
           calls w2
           = cs ++ call_mpg123_read (len two) (C_size_t (len two))
                   :: call_src_Read (64 * 1024) :: calls Waiting.ended
           /\ DecoderReader.Read 1 lenient two Waiting.ended
              = Returned (store [] two, 0, Some io_EOF) (nuked w2)).
Proof.
  split.
  - set (w := @mkWorld reader engine [] failed
                [call_mpg123_close; call_src_Read 65536]).
    assert (Hfirst : DecoderReader.Read 1 paranoid two (world [] hungry)
                     = Returned (two, 0, Some io_EOF) w)
      by (vm_compute; reflexivity).
    assert (Hsrc : io_Read (src w) (64 * 1024) = ([], 0, Some io_EOF, []))
      by reflexivity.
    split; [exact Hfirst |].
    exact (proj1 (Read_after_end_of_stream paranoid two two two [] 1 0 0 0
                    io_EOF [] (world [] hungry) w Hfirst Hsrc)
             eq_refl).
  - set (w0 := @mkWorld reader unit [] tt []).
    assert (Hfirst : DecoderReader.Read 1 lenient two w0
                     = Returned (two, 0, Some io_EOF) Waiting.ended)
      by (vm_compute; reflexivity).
    assert (Hsrc : io_Read (src Waiting.ended) (64 * 1024)
                   = ([], 0, Some io_EOF, []))
      by reflexivity.
    assert (Hread : mpg123_read (handle Waiting.ended) (C_size_t (len two))
                    = (C.MPG123_NEED_MORE, [], 0, tt))
      by reflexivity.
    assert (Hfit : len [] <= len two) by (vm_compute; discriminate).
    assert (Hlisted : DecoderReader.listed (C_int C.MPG123_NEED_MORE) = true)
      by reflexivity.
    assert (Hbytes : two <> []) by discriminate.
    split; [exact Hfirst |]. split; [exact Hlisted |].
    exact (proj2 (Read_after_end_of_stream lenient two two two [] 1 0 0 0
                    io_EOF [] w0 Waiting.ended Hfirst Hsrc)
             eq_refl eq_refl Hbytes C.MPG123_NEED_MORE 0 [] tt
             Hread Hfit Hlisted).
Defined.

(** The request on one stereo 16-bit frame: an empty buffer panics, a
    buffer of one byte is handed to the engine with a request for four. *)
Lemma ReadAudioFrames_request_witness :
  mpg123_getformat (handle (world [] (four_bytes stereo16 C.MPG123_OK)))
  = (44100, 2, 208, four_bytes stereo16 C.MPG123_OK)
  /\ framesToBytes (E := Engine_engine) 208 1 2 = 2 * 1 * 2
  /\ Decoder.ReadAudioFrames 1 []
       (world [] (four_bytes stereo16 C.MPG123_OK))
     = Panicked index_out_of_range
         (mkWorld [] (four_bytes stereo16 C.MPG123_OK) [call_mpg123_getformat])
  /\ Decoder.ReadAudioFrames 1 [x00]
       (world [] (four_bytes stereo16 C.MPG123_OK))
     = OutOfBounds
         (mkWorld [] (mk_engine [] [] C.MPG123_OK stereo16 0 C.MPG123_ERR)
            [call_mpg123_read (len [x00])
               (framesToBytes (E := Engine_engine) 208 1 2);
             call_mpg123_getformat]).
Proof.
  assert (Hfmt : mpg123_getformat
                   (handle (world [] (four_bytes stereo16 C.MPG123_OK)))
                 = (44100, 2, 208, four_bytes stereo16 C.MPG123_OK))
    by reflexivity.
  split; [exact Hfmt |].
  pose proof (ReadAudioFrames_request 1 []
                (world [] (four_bytes stereo16 C.MPG123_OK))
                44100 2 208 (four_bytes stereo16 C.MPG123_OK) Hfmt)
    as (Hsize & Hnil & _).
  pose proof (ReadAudioFrames_request 1 [x00]
                (world [] (four_bytes stereo16 C.MPG123_OK))
                44100 2 208 (four_bytes stereo16 C.MPG123_OK) Hfmt)
    as (_ & _ & Hcons).
  split; [| split].
  - apply Hsize. vm_compute. split; [discriminate | reflexivity].
  - apply Hnil. reflexivity.
  - assert (Hbuf : [x00] <> []) by discriminate.
    assert (Hread : mpg123_read (four_bytes stereo16 C.MPG123_OK)
                      (framesToBytes (E := Engine_engine) 208 1 2)
                    = (C.MPG123_OK, [x01; x02; x03; x04], 4,
                       mk_engine [] [] C.MPG123_OK stereo16 0 C.MPG123_ERR))
      by reflexivity.
    apply (proj1 (Hcons Hbuf _ _ _ _ Hread)).
    vm_compute. reflexivity.
Defined.

(** C5 on the engine that decodes three bytes and then fails. *)
Lemma Decode_hard_error_returns_nil_witness :
  Decoder.Decode_drained 3 [x09] (world [] breaks)
  = Returned (inr (C.MPG123_ERR, [x01; x02; x03]))
      (mkWorld []
         (mk_engine [] [] C.MPG123_OK stereo16 0 C.MPG123_NEED_MORE)
         [call_mpg123_decode [] 32768; call_mpg123_decode [] 32768;
          call_log; call_mpg123_decode [x09] 32768])
  /\ returned (Decoder.Decode 3 [x09] (world [] breaks))
     = Some ([], Some (Errorf "mpg123 error: scripted")).
Proof.
  set (w2 := mkWorld ([] : reader)
               (mk_engine [] [] C.MPG123_OK stereo16 0 C.MPG123_NEED_MORE)
               [call_mpg123_decode [] 32768; call_mpg123_decode [] 32768;
                call_log; call_mpg123_decode [x09] 32768]).
  assert (Hdrained : Decoder.Decode_drained 3 [x09] (world [] breaks)
                     = Returned (inr (C.MPG123_ERR, [x01; x02; x03])) w2)
    by (vm_compute; reflexivity).
  split; [exact Hdrained |].
  rewrite (proj1 (Decode_hard_error_returns_nil 3 [x09] (world [] breaks))
             w2 [x01; x02; x03] Hdrained).
  reflexivity.
Defined.

(** Paranoid mode when the stream fails after a round that went round
    again, and [Seek] on an engine whose mpg123_seek fails. *)
Example paranoid_error_after_a_round :
  DecoderReader.Read 2 paranoid two
    (world [([x07; x08], 2, None); ([], 0, Some (stream_error 7))] hungry)
  = Returned (two, 0, Some (stream_error 7))
      (mkWorld [] failed
         [call_mpg123_close; call_src_Read 65536; call_mpg123_read 2 2;
          call_mpg123_feed [x07; x08]; call_src_Read 65536]).
Proof. vm_compute. reflexivity. Qed.

Example Seek_failure_is_not_an_error :
  Decoder.Seek 0 0 (world [] unseekable)
  = Returned (-1, None) (mkWorld [] unseekable [call_mpg123_seek 0 0]).
Proof. vm_compute. reflexivity. Qed.

End Runs.

(** * The rest of the package *)

(** ** Decoder within its buffers *)

Section BoundsProps.
Context {S H : Type} {R : Reader S} {E : Engine H}.

Local Abbreviation W := (World S H).

Lemma C_size_t_le (z : Z) : 0 <= z -> 0 <= C_size_t z <= z.
Proof.
  intros Hz. unfold C_size_t, wrapu.
  pose proof (Z.mod_pos_bound z (2 ^ 64) ltac:(lia)).
  pose proof (Z.mod_le z (2 ^ 64) Hz ltac:(lia)). lia.
Qed.

(** A native read that asks for no more than the slice holds stays inside
    it when the engine keeps to the size it is given. *)
Lemma native_read_within (buf : list byte) (size : Z) (w : W) :
  read_within E ->
  0 <= size <= len buf ->
  size < 2 ^ 64 ->
  (forall w', native_read buf size w <> OutOfBounds w')
  /\ (forall rc b done w',
         native_read buf size w = Returned (rc, b, done) w' ->
         len b = len buf /\ 0 <= done <= size).
Proof.
  intros Hengine Hsize Hsmall. unfold native_read.
  destruct (mpg123_read (handle w) size) as [[[rc0 written] done0] h'] eqn:Hread.
  destruct (Hengine _ _ _ _ _ _ Hread ltac:(lia)) as [Hdone Hwritten].
  replace (len buf <? len written) with false
    by (symmetry; apply Z.ltb_ge; lia).
  split; [discriminate |].
  intros rc b done w' Hrun. injection Hrun as _ <- <- _.
  split; [apply len_store |].
  rewrite C_size_t_small by lia. exact Hdone.
Qed.

Lemma read_result_returns (rc : Z) (buf : list byte) (done : Z) (w : W) :
  exists err w',
    Decoder.read_result rc buf done w = Returned (buf, int done, err) w'.
Proof.
  unfold Decoder.read_result.
  destruct (rc =? C.MPG123_DONE); [eexists; eexists; reflexivity |].
  destruct (negb (rc =? C.MPG123_OK)); eexists; eexists; reflexivity.
Qed.

(** What [Read] and [ReadAudioFrames] share once [buf] is known to be
    non-empty and the size asked for to fit. *)
Lemma read_tail_within (buf : list byte) (size : Z) (w : W) :
  read_within E ->
  buf <> [] ->
  0 <= size <= len buf ->
  len buf <= max_int ->
  let m := (addr0 buf ;;
            '(err, buf', done) <- native_read buf size ;;
            Decoder.read_result err buf' done) in
  (forall w', m w <> OutOfBounds w')
  /\ (forall p w', m w <> Panicked p w')
  /\ (forall b n err w',
         m w = Returned (b, n, err) w' ->
         0 <= n <= size /\ len b = len buf).
Proof.
  intros Hengine Hbuf Hsize Hmax m. unfold max_int in Hmax.
  destruct (native_read_within buf size w Hengine Hsize ltac:(lia))
    as [Hsafe Hret].
  unfold m, bind. rewrite (addr0_cons buf w Hbuf).
  destruct (native_read buf size w) as [[[rc b0] done] w1 | p w1 | w1 |] eqn:Hread.
  - destruct (Hret rc b0 done w1 eq_refl) as [Hlen Hdone].
    destruct (read_result_returns rc b0 done w1) as (err0 & w2 & Hres).
    rewrite Hres.
    split; [discriminate |]. split; [discriminate |].
    intros b n err w' Hrun. injection Hrun as <- <- _ _.
    rewrite int_small by lia. split; [exact Hdone | exact Hlen].
  - exfalso. unfold native_read in Hread.
    destruct (mpg123_read (handle w) size) as [[[rc0 written] done0] h'].
    destruct (len buf <? len written); discriminate Hread.
  - exfalso. exact (Hsafe w1 eq_refl).
  - exfalso. unfold native_read in Hread.
    destruct (mpg123_read (handle w) size) as [[[rc0 written] done0] h'].
    destruct (len buf <? len written); discriminate Hread.
Qed.

(** X1.  [Decoder.Read] asks for [len(buf)] bytes, so with an engine that
    keeps to the size it is given the read stays inside [buf]: no write
    out of bounds, no panic on a non-empty buffer, and the count returned
    lies between 0 and [len(buf)]. *)
Theorem Decoder_Read_in_bounds (buf : list byte) (w : W) :
  read_within E ->
  buf <> [] ->
  len buf <= max_int ->
  (forall w', Decoder.Read buf w <> OutOfBounds w')
  /\ (forall p w', Decoder.Read buf w <> Panicked p w')
  /\ (forall b n err w',
         Decoder.Read buf w = Returned (b, n, err) w' ->
         0 <= n <= len buf /\ len b = len buf).
Proof.
  intros Hengine Hbuf Hmax.
  pose proof (len_nonneg buf) as Hnn. unfold max_int in Hmax.
  pose proof (read_tail_within buf (C_size_t (len buf)) w Hengine Hbuf) as Htail.
  rewrite C_size_t_small in Htail by lia.
  specialize (Htail ltac:(lia) ltac:(unfold max_int; lia)).
  unfold Decoder.Read. rewrite C_size_t_small by lia.
  exact Htail.
Qed.

(** X2.  [ReadAudioFrames] stays inside [buf] when the caller's buffer
    holds the byte count computed from the format: then, with an engine
    that keeps to the size it is given, there is no write out of bounds and
    the count returned is at most the count asked for. *)
Theorem ReadAudioFrames_in_bounds (frames : Z) (buf : list byte) (w : W)
    (rate chans enc : Z) (h1 : H) :
  read_within E ->
  mpg123_getformat (handle w) = (rate, chans, enc, h1) ->
  buf <> [] ->
  framesToBytes enc frames chans <= len buf ->
  len buf <= max_int ->
  (forall w', Decoder.ReadAudioFrames frames buf w <> OutOfBounds w')
  /\ (forall b n err w',
         Decoder.ReadAudioFrames frames buf w = Returned (b, n, err) w' ->
         0 <= n <= framesToBytes enc frames chans /\ len b = len buf).
Proof.
  intros Hengine Hfmt Hbuf Hfit Hmax.
  rewrite (ReadAudioFrames_unfold frames buf w rate chans enc h1 Hfmt).
  assert (Hnn : 0 <= framesToBytes enc frames chans).
  { unfold framesToBytes. apply Z.mod_pos_bound. lia. }
  assert (Hsize : 0 <= framesToBytes enc frames chans <= len buf)
    by (split; assumption).
  destruct (read_tail_within buf (framesToBytes enc frames chans)
              (mkWorld (src w) h1 (call_mpg123_getformat :: calls w))
              Hengine Hbuf Hsize Hmax)
    as (Hsafe & _ & Hret).
  split; [exact Hsafe | exact Hret].
Qed.

(** X3.  A negative frame count is not rejected.  When the product
    [bytesPerSample * frames * channels] is negative its conversion to
    [size_t] wraps: on a non-empty buffer the native read is issued for
    [2 ^ 64 + product] bytes, more than any Go slice holds. *)
Theorem ReadAudioFrames_negative_count (frames : Z) (buf : list byte) (w : W)
    (rate chans enc : Z) (h1 : H) :
  mpg123_getformat (handle w) = (rate, chans, enc, h1) ->
  buf <> [] ->
  len buf <= max_int ->
  let product := C_int (mpg123_encsize (C_int enc)) * frames * C_int chans in
  - 2 ^ 63 <= product < 0 ->
  exists w',
    world_after (Decoder.ReadAudioFrames frames buf w) = Some w'
    /\ In (call_mpg123_read (len buf) (2 ^ 64 + product)) (calls w')
    /\ len buf < 2 ^ 64 + product.
Proof.
  intros Hfmt Hbuf Hmax product Hneg. unfold max_int in Hmax.
  rewrite (ReadAudioFrames_unfold frames buf w rate chans enc h1 Hfmt).
  assert (Hsize : framesToBytes enc frames chans = 2 ^ 64 + product).
  { unfold framesToBytes. fold product.
    replace product with (2 ^ 64 + product + (-1) * 2 ^ 64) at 1 by lia.
    rewrite Z_mod_plus_full. apply Z.mod_small. lia. }
  rewrite Hsize.
  set (w1 := mkWorld (src w) h1 (call_mpg123_getformat :: calls w)).
  unfold bind. rewrite (addr0_cons buf w1 Hbuf).
  unfold native_read.
  destruct (mpg123_read (handle w1) (2 ^ 64 + product))
    as [[[rc written] done] h2].
  set (w2 := mkWorld (src w1) h2
               (call_mpg123_read (len buf) (2 ^ 64 + product) :: calls w1)).
  destruct (len buf <? len written).
  - exists w2. split; [reflexivity |]. split; [left; reflexivity | lia].
  - unfold Decoder.read_result, bind.
    destruct (C_int rc =? C.MPG123_DONE).
    + exists w2. split; [reflexivity |]. split; [left; reflexivity | lia].
    + destruct (negb (C_int rc =? C.MPG123_OK)).
      * rewrite mpg123_error_eq. eexists. split; [reflexivity |].
        split; [right; left; reflexivity | lia].
      * exists w2. split; [reflexivity |]. split; [left; reflexivity | lia].
Qed.

(** X4.  [DecodeSamples] never returns an error: whatever
    [ReadAudioFrames] reports, an engine error included, the error handed
    back is [nil]; on an engine error the frame count is still the byte
    count over four. *)
Theorem DecodeSamples_never_fails (samples : Z) (audio : list byte) (w : W) :
  (forall b n err w',
      Decoder.DecodeSamples samples audio w = Returned (b, n, err) w' ->
      err = None)
  /\ (forall b rLen msg w',
         Decoder.ReadAudioFrames samples audio w
         = Returned (b, rLen, Some (Errorf msg)) w' ->
         Decoder.DecodeSamples samples audio w
         = Returned (b, div rLen 4, None) w').
Proof.
  split.
  - intros b n err w' Hrun. unfold Decoder.DecodeSamples, bind in Hrun.
    destruct (Decoder.ReadAudioFrames samples audio w)
      as [[[b0 rLen] err0] w1 | | |]; try discriminate Hrun.
    destruct (err_is err0 EOF); unfold ret in Hrun; congruence.
  - intros b rLen msg w' Hrun.
    unfold Decoder.DecodeSamples, bind. rewrite Hrun. reflexivity.
Qed.

(** X5.  [GetEncodingBitsPerSample] is eight times the engine's sample
    size with no overflow, so dividing it by eight gives the sample size
    back; the encoding is cut to a C [int] first, so two encodings that
    differ by a multiple of [2 ^ 32] get the same answer. *)
Theorem GetEncodingBitsPerSample_exact (encoding k : Z) :
  Decoder.GetEncodingBitsPerSample encoding
  = 8 * C_int (mpg123_encsize (C_int encoding))
  /\ div (Decoder.GetEncodingBitsPerSample encoding) 8
     = C_int (mpg123_encsize (C_int encoding))
  /\ Decoder.GetEncodingBitsPerSample (encoding + k * 2 ^ 32)
     = Decoder.GetEncodingBitsPerSample encoding.
Proof.
  split; [| split].
  - unfold Decoder.GetEncodingBitsPerSample, mul.
    rewrite int_C_int.
    pose proof (C_int_range (mpg123_encsize (C_int encoding))).
    apply int_small. lia.
  - apply bytesPerSample_encsize.
  - unfold Decoder.GetEncodingBitsPerSample. do 2 f_equal. f_equal. f_equal.
    unfold C_int, wraps. f_equal.
    replace (encoding + k * 2 ^ 32 + 2 ^ (32 - 1))
      with (encoding + 2 ^ (32 - 1) + k * 2 ^ 32) by lia.
    apply Z_mod_plus_full.
Qed.

End BoundsProps.

(** ** Decode: the first call and the drain loop *)

Section DrainProps.
Context {S H : Type} {R : Reader S} {E : Engine H}.

Local Abbreviation W := (World S H).

Lemma make_nonempty (n : Z) : 0 < n -> make n <> [].
Proof.
  intros Hn Hnil. pose proof (len_make n ltac:(lia)) as Hlen.
  rewrite Hnil in Hlen. cbn in Hlen. lia.
Qed.

Lemma out_size : C_size_t OUT_MAX_BUFFER_SIZE = OUT_MAX_BUFFER_SIZE.
Proof. reflexivity. Qed.

Lemma len_out : len (make OUT_MAX_BUFFER_SIZE) = OUT_MAX_BUFFER_SIZE.
Proof. apply len_make. discriminate. Qed.

Lemma native_decode_inv (input out : list byte) (size : Z) (w w' : W)
    (rc sz : Z) (out' : list byte) :
  native_decode input out size w = Returned (rc, out', sz) w' ->
  exists rc0 written sz0 h',
    mpg123_decode (handle w) input size = (rc0, written, sz0, h')
    /\ len written <= len out
    /\ rc = C_int rc0 /\ out' = store written out /\ sz = C_size_t sz0
    /\ w' = mkWorld (src w) h' (call_mpg123_decode input size :: calls w).
Proof.
  unfold native_decode. intros Hrun.
  destruct (mpg123_decode (handle w) input size)
    as [[[rc0 written] sz0] h'].
  destruct (len out <? len written) eqn:Hfit; [discriminate Hrun |].
  apply Z.ltb_ge in Hfit. injection Hrun as <- <- <- <-.
  exists rc0, written, sz0, h'. repeat split. exact Hfit.
Qed.

Lemma addr0_inv (buf : list byte) (w w' : W) (u : unit) :
  addr0 buf w = Returned u w' -> buf <> [] /\ w' = w.
Proof.
  destruct buf; [discriminate |].
  unfold addr0, ret. intros Hrun. injection Hrun as _ <-.
  split; [discriminate | reflexivity].
Qed.

Lemma slice_to_inv (s chunk : list byte) (n : Z) (w w' : W) :
  slice_to s n w = Returned chunk w' ->
  0 <= n <= len s /\ chunk = firstn (Z.to_nat n) s /\ w' = w.
Proof.
  unfold slice_to.
  destruct ((n <? 0) || (len s <? n)) eqn:Hout; [discriminate |].
  apply orb_false_elim in Hout. destruct Hout as [Hlo Hhi].
  apply Z.ltb_ge in Hlo, Hhi.
  unfold ret. intros Hrun. injection Hrun as <- <-.
  repeat split; lia.
Qed.

(** One round of the drain loop, read backwards. *)
Lemma Decode_drain_inv (b out : list byte) (w w' : W)
    (r : list byte * list byte + Z * list byte) :
  Decoder.Decode_drain (b, out) w = Returned r w' ->
  exists rc written sz h',
    mpg123_decode (handle w) [] (C_size_t OUT_MAX_BUFFER_SIZE)
    = (rc, written, sz, h')
    /\ match r with
       | inr (rc', b') =>
           rc' = C_int rc /\ b' = b
           /\ (rc' = C.MPG123_ERR \/ rc' = C.MPG123_NEED_MORE)
       | inl (b', out') =>
           (exists chunk, b' = b ++ chunk) /\ len out' = len out
           /\ C_int rc <> C.MPG123_ERR /\ C_int rc <> C.MPG123_NEED_MORE
       end.
Proof.
  unfold Decoder.Decode_drain, bind. intros Hrun.
  destruct (addr0 out w) as [[] w0 | | |] eqn:Haddr; try discriminate Hrun.
  apply addr0_inv in Haddr. destruct Haddr as [_ ->].
  destruct (native_decode [] out (C_size_t OUT_MAX_BUFFER_SIZE) w)
    as [[[rc out'] sz] w1 | | |] eqn:Hdec; try discriminate Hrun.
  destruct (native_decode_inv _ _ _ _ _ _ _ _ Hdec)
    as (rc0 & written & sz0 & h' & Hcall & _ & -> & -> & -> & _).
  exists rc0, written, sz0, h'. split; [exact Hcall |].
  destruct ((C_int rc0 =? C.MPG123_ERR) || (C_int rc0 =? C.MPG123_NEED_MORE))
    eqn:Hbreak.
  - unfold ret in Hrun. injection Hrun as <- _.
    apply orb_true_iff in Hbreak. rewrite !Z.eqb_eq in Hbreak.
    repeat split. exact Hbreak.
  - apply orb_false_elim in Hbreak. destruct Hbreak as [Herr Hmore].
    apply Z.eqb_neq in Herr, Hmore.
    destruct (0 <? int (C_size_t sz0)).
    + destruct (slice_to (store written out) (int (C_size_t sz0)) w1)
        as [chunk w2 | | |]; try discriminate Hrun.
      unfold ret in Hrun. injection Hrun as <- _.
      split; [eexists; reflexivity |].
      split; [apply len_store | split; assumption].
    + unfold ret in Hrun. injection Hrun as <- _.
      split; [exists []; symmetry; apply app_nil_r |].
      split; [apply len_store | split; assumption].
Qed.

(** What the drain loop breaks with. *)
Lemma drain_loop_inv (fuel : nat) :
  forall (b out : list byte) (w w' : W) (rc : Z) (b' : list byte),
    loop fuel Decoder.Decode_drain (b, out) w = Returned (rc, b') w' ->
    (exists more, b' = b ++ more)
    /\ (rc = C.MPG123_ERR \/ rc = C.MPG123_NEED_MORE)
    /\ exists h rc0 written sz h',
         mpg123_decode h [] (C_size_t OUT_MAX_BUFFER_SIZE)
         = (rc0, written, sz, h')
         /\ rc = C_int rc0.
Proof.
  induction fuel as [| fuel IH]; intros b out w w' rc b' Hrun.
  - discriminate Hrun.
  - rewrite loop_S in Hrun.
    destruct (Decoder.Decode_drain (b, out) w) as [[[b1 out1] | [rc1 b1]] w1 | | |]
      eqn:Hround; try discriminate Hrun.
    + destruct (Decode_drain_inv _ _ _ _ _ Hround)
        as (_ & _ & _ & _ & _ & ([chunk ->] & _)).
      destruct (IH _ _ _ _ _ _ Hrun) as ([more ->] & Hrc & Hcall).
      split; [exists (chunk ++ more); symmetry; apply app_assoc |].
      split; assumption.
    + injection Hrun as <- <- <-.
      destruct (Decode_drain_inv _ _ _ _ _ Hround)
        as (rc0 & written & sz & h' & Hcall & -> & -> & Hrc).
      split; [exists []; symmetry; apply app_nil_r |].
      split; [exact Hrc |].
      exists (handle w), rc0, written, sz, h'. split; [exact Hcall | reflexivity].
Qed.

(** X6.  The buffer of [Decode] is append-only: whatever the drain loop
    breaks with extends the bytes it started from, and it breaks only on
    MPG123_ERR or MPG123_NEED_MORE. *)
Theorem Decode_drain_appends (fuel : nat) (b out b' : list byte) (rc : Z)
    (w w' : W) :
  loop fuel Decoder.Decode_drain (b, out) w = Returned (rc, b') w' ->
  (exists more, b' = b ++ more)
  /\ (rc = C.MPG123_ERR \/ rc = C.MPG123_NEED_MORE).
Proof.
  intros Hrun.
  destruct (drain_loop_inv fuel b out w w' rc b' Hrun) as (Hmore & Hrc & _).
  split; assumption.
Qed.

End DrainProps.

Section DecodeMore.
Context {S H : Type} {R : Reader S} {E : Engine H}.

Local Abbreviation W := (World S H).

(** The first call of [Decode], read backwards. *)
Lemma Decode_first_inv (buf : list byte) (w w' : W)
    (r : list byte * list byte + list byte * option error) :
  Decoder.Decode_first buf w = Returned r w' ->
  buf <> []
  /\ exists rc written sz h',
       mpg123_decode (handle w) buf (C_size_t OUT_MAX_BUFFER_SIZE)
       = (rc, written, sz, h')
       /\ match r with
          | inr (bs, e) =>
              bs = [] /\ e <> None
              /\ (C_int rc = C.MPG123_ERR \/ C_int rc = C.MPG123_NEED_MORE)
          | inl (b, out) =>
              len out = OUT_MAX_BUFFER_SIZE
              /\ C_int rc <> C.MPG123_ERR /\ C_int rc <> C.MPG123_NEED_MORE
          end.
Proof.
  unfold Decoder.Decode_first, bind. intros Hrun.
  destruct (addr0 buf w) as [[] w0 | | |] eqn:Haddr; try discriminate Hrun.
  apply addr0_inv in Haddr. destruct Haddr as [Hbuf ->].
  split; [exact Hbuf |].
  destruct (addr0 (make OUT_MAX_BUFFER_SIZE) w) as [[] w0 | | |] eqn:Haddr;
    try discriminate Hrun.
  apply addr0_inv in Haddr. destruct Haddr as [_ ->].
  destruct (native_decode buf (make OUT_MAX_BUFFER_SIZE)
              (C_size_t OUT_MAX_BUFFER_SIZE) w)
    as [[[rc out'] sz] w1 | | |] eqn:Hdec; try discriminate Hrun.
  destruct (native_decode_inv _ _ _ _ _ _ _ _ Hdec)
    as (rc0 & written & sz0 & h' & Hcall & _ & -> & -> & -> & _).
  exists rc0, written, sz0, h'. split; [exact Hcall |].
  assert (Hlen : len (store written (make OUT_MAX_BUFFER_SIZE))
                 = OUT_MAX_BUFFER_SIZE)
    by (rewrite len_store; apply len_out).
  destruct (C_int rc0 =? C.MPG123_NEW_FORMAT) eqn:Hnew.
  - apply Z.eqb_eq in Hnew.
    destruct (native_getformat w1) as [fmt w2 | | |]; try discriminate Hrun.
    destruct (log w2) as [[] w3 | | |]; try discriminate Hrun.
    unfold ret at 1 in Hrun.
    destruct (0 <? int (C_size_t sz0)).
    + destruct (slice_to (store written (make OUT_MAX_BUFFER_SIZE))
                  (int (C_size_t sz0)) w3) as [chunk w4 | | |];
        try discriminate Hrun.
      destruct (log w4) as [[] w5 | | |]; try discriminate Hrun.
      unfold ret in Hrun. injection Hrun as <- _.
      rewrite Hnew. repeat split; [exact Hlen | discriminate | discriminate].
    + unfold ret in Hrun. injection Hrun as <- _.
      rewrite Hnew. repeat split; [exact Hlen | discriminate | discriminate].
  - destruct ((C_int rc0 =? C.MPG123_ERR) || (C_int rc0 =? C.MPG123_NEED_MORE))
      eqn:Hbreak.
    + apply orb_true_iff in Hbreak. rewrite !Z.eqb_eq in Hbreak.
      destruct (log w1) as [[] w2 | | |]; try discriminate Hrun.
      unfold ret at 1 in Hrun. rewrite mpg123_error_eq in Hrun.
      unfold ret in Hrun. injection Hrun as <- _.
      repeat split; [discriminate | exact Hbreak].
    + apply orb_false_elim in Hbreak. destruct Hbreak as [Herr Hmore].
      apply Z.eqb_neq in Herr, Hmore.
      unfold ret at 1 in Hrun.
      destruct (0 <? int (C_size_t sz0)).
      * destruct (slice_to (store written (make OUT_MAX_BUFFER_SIZE))
                    (int (C_size_t sz0)) w1) as [chunk w4 | | |];
          try discriminate Hrun.
        destruct (log w4) as [[] w5 | | |]; try discriminate Hrun.
        unfold ret in Hrun. injection Hrun as <- _.
        repeat split; assumption.
      * unfold ret in Hrun. injection Hrun as <- _.
        repeat split; assumption.
Qed.

(** X7.  [Decode] returns only after the engine has answered MPG123_ERR
    or MPG123_NEED_MORE to a call of mpg123_decode: with a [nil] error
    after MPG123_NEED_MORE, with an error after either.  No other code,
    MPG123_DONE included, ends the drain loop. *)
Theorem Decode_returns_after_break_code (fuel : nat) (buf bs : list byte)
    (err : option error) (w w' : W) :
  Decoder.Decode fuel buf w = Returned (bs, err) w' ->
  exists h input rc written sz h',
    mpg123_decode h input (C_size_t OUT_MAX_BUFFER_SIZE) = (rc, written, sz, h')
    /\ ((err = None /\ C_int rc = C.MPG123_NEED_MORE)
        \/ (err <> None
            /\ (C_int rc = C.MPG123_ERR \/ C_int rc = C.MPG123_NEED_MORE))).
Proof.
  unfold Decoder.Decode, Decoder.Decode_drained, bind. intros Hrun.
  destruct (Decoder.Decode_first buf w) as [first w1 | | |] eqn:Hfirst;
    try discriminate Hrun.
  destruct (Decode_first_inv buf w w1 first Hfirst)
    as (_ & rc & written & sz & h' & Hcall & Hcase).
  destruct first as [[b out] | [bs0 e0]].
  - destruct (loop fuel Decoder.Decode_drain (b, out) w1)
      as [[rc1 b1] w2 | | |] eqn:Hloop; try discriminate Hrun.
    destruct (drain_loop_inv fuel b out w1 w2 rc1 b1 Hloop)
      as (_ & Hrc & h2 & rc2 & written2 & sz2 & h2' & Hcall2 & ->).
    exists h2, [], rc2, written2, sz2, h2'. split; [exact Hcall2 |].
    unfold ret at 1 in Hrun. unfold Decoder.Decode_finish in Hrun.
    destruct (C_int rc2 =? C.MPG123_ERR) eqn:Herr.
    + unfold bind in Hrun.
      destruct (log w2) as [[] w3 | | |]; try discriminate Hrun.
      rewrite mpg123_error_eq in Hrun. unfold ret in Hrun.
      injection Hrun as _ <- _. right. split; [discriminate | exact Hrc].
    + apply Z.eqb_neq in Herr. unfold ret in Hrun.
      injection Hrun as _ <- _. left. split; [reflexivity |].
      destruct Hrc as [Hrc | Hrc]; [contradiction | exact Hrc].
  - unfold ret in Hrun. injection Hrun as -> -> _.
    destruct Hcase as (_ & He & Hrc).
    exists (handle w), buf, rc, written, sz, h'. split; [exact Hcall |].
    right. split; assumption.
Qed.

End DecodeMore.

Section DecodeSafety.
Context {S H : Type} {R : Reader S} {E : Engine H}.

Local Abbreviation W := (World S H).

Lemma native_decode_eq (input out : list byte) (size : Z) (w : W)
    (rc sz : Z) (written : list byte) (h' : H) :
  mpg123_decode (handle w) input size = (rc, written, sz, h') ->
  len written <= len out ->
  native_decode input out size w =
  Returned (C_int rc, store written out, C_size_t sz)
           (mkWorld (src w) h' (call_mpg123_decode input size :: calls w)).
Proof.
  intros Hcall Hfit. unfold native_decode. rewrite Hcall.
  replace (len out <? len written) with false
    by (symmetry; apply Z.ltb_ge; exact Hfit).
  reflexivity.
Qed.

(** The slice [out[:outLen]] of a count the engine kept within the size
    of [out]. *)
Lemma slice_to_within (s : list byte) (n : Z) (w : W) :
  0 <= n <= len s -> slice_to s n w = Returned (firstn (Z.to_nat n) s) w.
Proof.
  intros Hn. unfold slice_to.
  replace (n <? 0) with false by (symmetry; apply Z.ltb_ge; lia).
  replace (len s <? n) with false by (symmetry; apply Z.ltb_ge; lia).
  reflexivity.
Qed.

(** X8.  [Decode] on an empty chunk panics at [&buf[0]] before any native
    call.  On a non-empty chunk, when the first call of mpg123_decode
    answers MPG123_NEED_MORE or MPG123_ERR, [Decode] returns [nil] and an
    error at once: the drain loop is not entered, and whatever that call
    decoded is dropped. *)
Theorem Decode_first_call_rejected (fuel : nat) (buf : list byte) (w : W)
    (rc sz : Z) (written : list byte) (h' : H) :
  Decoder.Decode fuel [] w = Panicked index_out_of_range w
  /\ (buf <> [] ->
      mpg123_decode (handle w) buf (C_size_t OUT_MAX_BUFFER_SIZE)
      = (rc, written, sz, h') ->
      len written <= OUT_MAX_BUFFER_SIZE ->
      C_int rc = C.MPG123_NEED_MORE \/ C_int rc = C.MPG123_ERR ->
      Decoder.Decode fuel buf w =
      Returned ([], Some (Errorf ("mpg123 error: " ++ mpg123_strerror h')))
        (mkWorld (src w) h'
           (call_mpg123_strerror :: call_log
            :: call_mpg123_decode buf (C_size_t OUT_MAX_BUFFER_SIZE)
            :: calls w))).
Proof.
  split; [reflexivity |].
  intros Hbuf Hcall Hfit Hrc.
  unfold Decoder.Decode, Decoder.Decode_drained, Decoder.Decode_first, bind.
  rewrite (addr0_cons buf w Hbuf).
  rewrite (addr0_cons (make OUT_MAX_BUFFER_SIZE) w
             (make_nonempty OUT_MAX_BUFFER_SIZE eq_refl)).
  rewrite <- len_out in Hfit.
  rewrite (native_decode_eq buf _ _ w rc sz written h' Hcall Hfit).
  assert (Hnew : (C_int rc =? C.MPG123_NEW_FORMAT) = false)
    by (destruct Hrc as [-> | ->]; reflexivity).
  assert (Hbreak : ((C_int rc =? C.MPG123_ERR)
                    || (C_int rc =? C.MPG123_NEED_MORE)) = true)
    by (destruct Hrc as [-> | ->]; reflexivity).
  rewrite Hnew, Hbreak. reflexivity.
Qed.

Lemma Decode_first_total (buf : list byte) (w : W) :
  decode_within E -> buf <> [] ->
  exists r w', Decoder.Decode_first buf w = Returned r w'.
Proof.
  intros Hengine Hbuf.
  unfold Decoder.Decode_first, bind.
  rewrite (addr0_cons buf w Hbuf).
  rewrite (addr0_cons (make OUT_MAX_BUFFER_SIZE) w
             (make_nonempty OUT_MAX_BUFFER_SIZE eq_refl)).
  destruct (mpg123_decode (handle w) buf (C_size_t OUT_MAX_BUFFER_SIZE))
    as [[[rc written] sz] h'] eqn:Hcall.
  destruct (Hengine _ _ _ _ _ _ _ Hcall ltac:(discriminate)) as [Hsz Hfit].
  rewrite out_size in Hsz, Hfit.
  assert (Hfit' : len written <= len (make OUT_MAX_BUFFER_SIZE))
    by (rewrite len_out; exact Hfit).
  rewrite (native_decode_eq buf _ _ w rc sz written h' Hcall Hfit').
  assert (Hint : int (C_size_t sz) = sz).
  { unfold OUT_MAX_BUFFER_SIZE in Hsz.
    rewrite C_size_t_small by lia. apply int_small. lia. }
  assert (Hslice : forall w0 : W,
             slice_to (store written (make OUT_MAX_BUFFER_SIZE))
               (int (C_size_t sz)) w0
             = Returned (firstn (Z.to_nat (int (C_size_t sz)))
                           (store written (make OUT_MAX_BUFFER_SIZE))) w0).
  { intros w0. apply slice_to_within.
    rewrite Hint, len_store, len_out. exact Hsz. }
  destruct (C_int rc =? C.MPG123_NEW_FORMAT).
  - unfold native_getformat.
    destruct (mpg123_getformat _) as [[[rate chans] enc] h2].
    unfold log, record, ret at 1.
    destruct (0 <? int (C_size_t sz)).
    + rewrite Hslice. eexists. eexists. reflexivity.
    + eexists. eexists. reflexivity.
  - destruct ((C_int rc =? C.MPG123_ERR) || (C_int rc =? C.MPG123_NEED_MORE)).
    + eexists. eexists. reflexivity.
    + unfold ret at 1.
      destruct (0 <? int (C_size_t sz)).
      * rewrite Hslice. eexists. eexists. reflexivity.
      * eexists. eexists. reflexivity.
Qed.

Lemma Decode_drain_total (b out : list byte) (w : W) :
  decode_within E -> len out = OUT_MAX_BUFFER_SIZE ->
  exists r w', Decoder.Decode_drain (b, out) w = Returned r w'.
Proof.
  intros Hengine Hlen.
  assert (Hout : out <> []).
  { intros ->. discriminate Hlen. }
  unfold Decoder.Decode_drain, bind.
  rewrite (addr0_cons out w Hout).
  destruct (mpg123_decode (handle w) [] (C_size_t OUT_MAX_BUFFER_SIZE))
    as [[[rc written] sz] h'] eqn:Hcall.
  destruct (Hengine _ _ _ _ _ _ _ Hcall ltac:(discriminate)) as [Hsz Hfit].
  rewrite out_size in Hsz, Hfit.
  assert (Hfit' : len written <= len out) by (rewrite Hlen; exact Hfit).
  rewrite (native_decode_eq [] _ _ w rc sz written h' Hcall Hfit').
  destruct ((C_int rc =? C.MPG123_ERR) || (C_int rc =? C.MPG123_NEED_MORE)).
  - eexists. eexists. reflexivity.
  - destruct (0 <? int (C_size_t sz)).
    + rewrite slice_to_within.
      * eexists. eexists. reflexivity.
      * unfold OUT_MAX_BUFFER_SIZE in Hsz.
        rewrite C_size_t_small by lia. rewrite int_small by lia.
        rewrite len_store, Hlen. exact Hsz.
    + eexists. eexists. reflexivity.
Qed.

Lemma drain_loop_total (fuel : nat) :
  decode_within E ->
  forall (b out : list byte) (w : W),
    len out = OUT_MAX_BUFFER_SIZE ->
    loop fuel Decoder.Decode_drain (b, out) w = OutOfFuel
    \/ exists r w', loop fuel Decoder.Decode_drain (b, out) w = Returned r w'.
Proof.
  intros Hengine.
  induction fuel as [| fuel IH]; intros b out w Hlen.
  - left. reflexivity.
  - rewrite loop_S.
    destruct (Decode_drain_total b out w Hengine Hlen) as (r & w1 & Hround).
    rewrite Hround. destruct r as [[b1 out1] | r].
    + apply IH.
      destruct (Decode_drain_inv _ _ _ _ _ Hround)
        as (_ & _ & _ & _ & _ & (_ & Hlen1 & _)).
      congruence.
    + right. eexists. eexists. reflexivity.
Qed.

(** X9.  With an engine that keeps to the size it is given, [Decode] on a
    non-empty chunk neither panics nor writes out of bounds: every slice
    [out[:outLen]] is within the 32768 bytes of [out].  It returns, or the
    drain loop is still going round. *)
Theorem Decode_safe (fuel : nat) (buf : list byte) (w : W) :
  decode_within E ->
  buf <> [] ->
  Decoder.Decode fuel buf w = OutOfFuel
  \/ exists r w', Decoder.Decode fuel buf w = Returned r w'.
Proof.
  intros Hengine Hbuf.
  unfold Decoder.Decode, Decoder.Decode_drained, bind.
  destruct (Decode_first_total buf w Hengine Hbuf) as (first & w1 & Hfirst).
  rewrite Hfirst.
  destruct first as [[b out] | early].
  - destruct (Decode_first_inv _ _ _ _ Hfirst)
      as (_ & _ & _ & _ & _ & _ & (Hlen & _)).
    destruct (drain_loop_total fuel Hengine b out w1 Hlen)
      as [Hout | ([rc b1] & w2 & Hloop)].
    + left. rewrite Hout. reflexivity.
    + right. rewrite Hloop. unfold ret at 1.
      unfold Decoder.Decode_finish.
      destruct (rc =? C.MPG123_ERR); eexists; eexists; reflexivity.
  - right. eexists. eexists. reflexivity.
Qed.

End DecodeSafety.

(** ** DecoderReader: when the decoder is closed *)

Section LogProps.
Context {S H : Type} {R : Reader S} {E : Engine H}.

Local Abbreviation W := (World S H).

Lemma quiet_nil : quiet [].
Proof. intros []. Qed.

Lemma quiet_app (cs cs1 : list Call) : quiet cs -> quiet cs1 -> quiet (cs ++ cs1).
Proof.
  unfold quiet. intros Hcs Hcs1 Hin. apply in_app_or in Hin. tauto.
Qed.

Lemma quiet_one (c : Call) : c <> call_mpg123_close -> quiet [c].
Proof. intros Hc [Hin | []]. congruence. Qed.

Lemma logs_ret {A : Type} (Q : A -> list Call -> Prop) (a : A) :
  Q a [] -> logs (S := S) (H := H) Q (ret a).
Proof.
  intros HQ w a' w' Hrun. unfold ret in Hrun. injection Hrun as <- <-.
  exists []. split; [reflexivity | exact HQ].
Qed.

(** After a stretch without a close, what the continuation adds decides. *)
Lemma logs_bind {A B : Type} (Q : B -> list Call -> Prop)
    (m : M W A) (k : A -> M W B) :
  logs (fun _ cs => quiet cs) m ->
  (forall a, logs Q (k a)) ->
  (forall b cs cs1, Q b cs -> quiet cs1 -> Q b (cs ++ cs1)) ->
  logs Q (bind m k).
Proof.
  intros Hm Hk Hclosed w b w' Hrun. unfold bind in Hrun.
  destruct (m w) as [a w1 | | |] eqn:Hmw; try discriminate Hrun.
  destruct (Hm w a w1 Hmw) as (cs1 & Hcs1 & Hq1).
  destruct (Hk a w1 b w' Hrun) as (cs & Hcs & HQ).
  exists (cs ++ cs1). split.
  - rewrite Hcs, Hcs1. apply app_assoc.
  - apply Hclosed; assumption.
Qed.

Lemma logs_quiet_bind {A B : Type} (m : M W A) (k : A -> M W B) :
  logs (fun _ cs => quiet cs) m ->
  (forall a, logs (fun _ cs => quiet cs) (k a)) ->
  logs (fun _ cs => quiet cs) (bind m k).
Proof.
  intros Hm Hk. apply logs_bind; [exact Hm | exact Hk |].
  intros _ cs cs1. apply quiet_app.
Qed.

Lemma logs_raise {A : Type} (Q : A -> list Call -> Prop) (p : panic) :
  logs (S := S) (H := H) Q (raise p).
Proof. intros w a w' Hrun. discriminate Hrun. Qed.

Lemma logs_record (c : Call) :
  c <> call_mpg123_close -> logs (fun _ cs => quiet cs) (record (S := S) (H := H) c).
Proof.
  intros Hc w [] w' Hrun. unfold record in Hrun. injection Hrun as <-.
  exists [c]. split; [reflexivity | apply quiet_one; exact Hc].
Qed.

Lemma logs_addr0 (buf : list byte) :
  logs (fun _ cs => quiet cs) (addr0 (S := S) (H := H) buf).
Proof.
  destruct buf; [apply logs_raise | apply logs_ret; apply quiet_nil].
Qed.

Lemma logs_slice_to (s : list byte) (n : Z) :
  logs (fun _ cs => quiet cs) (slice_to (S := S) (H := H) s n).
Proof.
  unfold slice_to. destruct ((n <? 0) || (len s <? n));
    [apply logs_raise | apply logs_ret; apply quiet_nil].
Qed.

Lemma logs_src_Read (p : list byte) :
  logs (fun _ cs => quiet cs) (src_Read (H := H) p).
Proof.
  intros w a w' Hrun. unfold src_Read in Hrun.
  destruct (io_Read (src w) (len p)) as [[[data n] err] s'].
  injection Hrun as _ <-. exists [call_src_Read (len p)].
  split; [reflexivity |]. apply quiet_one. discriminate.
Qed.

Lemma logs_native_read (buf : list byte) (size : Z) :
  logs (fun _ cs => quiet cs) (native_read (S := S) buf size).
Proof.
  intros w a w' Hrun. unfold native_read in Hrun.
  destruct (mpg123_read (handle w) size) as [[[rc written] done] h'].
  destruct (len buf <? len written); [discriminate Hrun |].
  injection Hrun as _ <-. exists [call_mpg123_read (len buf) size].
  split; [reflexivity |]. apply quiet_one. discriminate.
Qed.

Lemma logs_native_feed (data : list byte) :
  logs (fun _ cs => quiet cs) (native_feed (S := S) data).
Proof.
  intros w a w' Hrun. unfold native_feed in Hrun.
  destruct (mpg123_feed (handle w) data) as [rc h'].
  injection Hrun as _ <-. exists [call_mpg123_feed data].
  split; [reflexivity |]. apply quiet_one. discriminate.
Qed.

Lemma logs_native_getformat :
  logs (fun _ cs => quiet cs) (native_getformat (S := S)).
Proof.
  intros w a w' Hrun. unfold native_getformat in Hrun.
  destruct (mpg123_getformat (handle w)) as [[[rate chans] enc] h'].
  injection Hrun as _ <-. exists [call_mpg123_getformat].
  split; [reflexivity |]. apply quiet_one. discriminate.
Qed.

Lemma logs_mpg123_error :
  logs (fun _ cs => quiet cs) (Decoder.mpg123_error (S := S)).
Proof.
  intros w a w' Hrun. rewrite mpg123_error_eq in Hrun.
  injection Hrun as _ <-. exists [call_mpg123_strerror].
  split; [reflexivity |]. apply quiet_one. discriminate.
Qed.

Lemma logs_log : logs (fun _ cs => quiet cs) (log (S := S) (H := H)).
Proof. apply logs_record. discriminate. Qed.

Lemma logs_Feed (buf : list byte) :
  logs (fun _ cs => quiet cs) (Decoder.Feed (S := S) buf).
Proof.
  unfold Decoder.Feed.
  apply logs_quiet_bind; [apply logs_addr0 | intros _].
  apply logs_quiet_bind; [apply logs_native_feed | intros rc].
  destruct (negb (rc =? C.MPG123_OK));
    [apply logs_mpg123_error | apply logs_ret; apply quiet_nil].
Qed.

Lemma logs_new_format (msg : Z) :
  logs (fun _ cs => quiet cs) (DecoderReader.new_format (S := S) msg).
Proof.
  unfold DecoderReader.new_format.
  destruct (msg =? C.MPG123_NEW_FORMAT); [| apply logs_ret; apply quiet_nil].
  apply logs_quiet_bind; [| intros _; apply logs_log].
  unfold Decoder.GetFormat.
  apply logs_quiet_bind; [apply logs_native_getformat |].
  intros [[rate chans] enc]. apply logs_ret. apply quiet_nil.
Qed.

Lemma logs_Nuke :
  logs (fun _ cs => In call_mpg123_close cs) (DecoderReader.Nuke (S := S)).
Proof.
  intros w a w' Hrun. rewrite Nuke_eq in Hrun. injection Hrun as _ <-.
  destruct (nuked_calls w) as [cs Hcs].
  exists (cs ++ [call_mpg123_close]). split.
  - rewrite Hcs, <- app_assoc. reflexivity.
  - apply in_or_app. right. left. reflexivity.
Qed.

Lemma round_log_app {A : Type} (r : A + list byte * Z * option error)
    (cs cs1 : list Call) :
  round_log r cs -> quiet cs1 -> round_log r (cs ++ cs1).
Proof.
  destruct r as [a | [[b n] [e |]]]; cbn.
  - intros Hcs Hq. apply quiet_app; assumption.
  - intros Hin _. apply in_or_app. left. exact Hin.
  - intros Hcs Hq. apply quiet_app; assumption.
Qed.

End LogProps.

Section SessionProps.
Context {S H : Type} {R : Reader S} {E : Engine H}.

Local Abbreviation W := (World S H).

Lemma logs_Read_feed (dr : DecoderReader.t) (buf : list byte) (n : Z)
    (err : option error) :
  logs (fun fed cs =>
          match fed with
          | inl _ => quiet cs
          | inr _ => In call_mpg123_close cs
          end)
       (DecoderReader.Read_feed (S := S) dr buf n err).
Proof.
  unfold DecoderReader.Read_feed. destruct err as [e |].
  - destruct (DecoderReader.paranoid dr).
    + intros w fed w' Hrun. unfold bind in Hrun.
      destruct (DecoderReader.Nuke w) as [[] w1 | | |] eqn:Hnuke;
        try discriminate Hrun.
      destruct (logs_Nuke w tt w1 Hnuke) as (cs & Hcs & Hin).
      unfold ret in Hrun. injection Hrun as <- <-.
      exists cs. split; assumption.
    + apply logs_ret. apply quiet_nil.
  - apply logs_bind; [apply logs_slice_to | |].
    + intros chunk.
      apply logs_bind; [apply logs_Feed | |].
      * intros [e |].
        -- apply logs_bind; [apply logs_log | |].
           ++ intros _. apply logs_ret. apply quiet_nil.
           ++ intros [x | x] cs cs1; [apply quiet_app |].
              intros Hin _. apply in_or_app. left. exact Hin.
        -- apply logs_ret. apply quiet_nil.
      * intros [x | x] cs cs1; [apply quiet_app |].
        intros Hin _. apply in_or_app. left. exact Hin.
    + intros [x | x] cs cs1; [apply quiet_app |].
      intros Hin _. apply in_or_app. left. exact Hin.
Qed.

Lemma logs_Read_output (buf bytes : list byte) (err : option error) :
  logs round_log (DecoderReader.Read_output (S := S) buf bytes err).
Proof.
  unfold DecoderReader.Read_output.
  apply logs_bind; [apply logs_addr0 | | intros r; apply round_log_app].
  intros _.
  apply logs_bind; [apply logs_native_read | | intros r; apply round_log_app].
  intros [[msg bytes'] done].
  apply logs_bind; [apply logs_new_format | | intros r; apply round_log_app].
  intros _.
  destruct (DecoderReader.listed msg); [| apply logs_ret; apply quiet_nil].
  destruct (0 <? done); [apply logs_ret; apply quiet_nil |].
  destruct (err_is err io_EOF); [| apply logs_ret; apply quiet_nil].
  intros w r w' Hrun. unfold bind in Hrun.
  destruct (DecoderReader.Nuke w) as [[] w1 | | |] eqn:Hnuke;
    try discriminate Hrun.
  destruct (logs_Nuke w tt w1 Hnuke) as (cs & Hcs & Hin).
  unfold ret in Hrun. injection Hrun as <- <-.
  exists cs. split; assumption.
Qed.

Lemma logs_Read_body (dr : DecoderReader.t) (st : list byte * list byte) :
  logs round_log (DecoderReader.Read_body (S := S) dr st).
Proof.
  destruct st as [buf bytes]. unfold DecoderReader.Read_body.
  apply logs_bind; [apply logs_src_Read | | intros r; apply round_log_app].
  intros [[buf' n] err0].
  intros w r w' Hrun. unfold bind in Hrun.
  destruct (DecoderReader.Read_feed dr buf' n err0 w)
    as [[err | [n' e]] w1 | | |] eqn:Hfeed; try discriminate Hrun.
  - destruct (logs_Read_feed dr buf' n err0 w _ w1 Hfeed) as (cs1 & Hcs1 & Hq).
    destruct (logs_Read_output buf' bytes err w1 r w' Hrun) as (cs & Hcs & Hr).
    exists (cs ++ cs1). split.
    + rewrite Hcs, Hcs1. apply app_assoc.
    + apply round_log_app; assumption.
  - destruct (logs_Read_feed dr buf' n err0 w _ w1 Hfeed) as (cs1 & Hcs1 & Hin).
    destruct (Read_feed_early _ _ _ _ _ _ _ _ Hfeed) as (_ & _ & -> & Hsome & _).
    unfold ret in Hrun. injection Hrun as <- <-.
    exists cs1. split; [exact Hcs1 |].
    destruct err0 as [e0 |]; [exact Hin | congruence].
Qed.

Lemma logs_Read_loop (dr : DecoderReader.t) (fuel : nat) :
  forall st : list byte * list byte,
    logs closed_iff_error (loop fuel (DecoderReader.Read_body (S := S) dr) st).
Proof.
  induction fuel as [| fuel IH]; intros st w r w' Hrun.
  - discriminate Hrun.
  - rewrite loop_S in Hrun.
    destruct (DecoderReader.Read_body dr st w) as [[st1 | r1] w1 | | |]
      eqn:Hbody; try discriminate Hrun.
    + destruct (logs_Read_body dr st w _ w1 Hbody) as (cs1 & Hcs1 & Hq).
      destruct (IH st1 w1 r w' Hrun) as (cs & Hcs & Hr).
      exists (cs ++ cs1). split.
      * rewrite Hcs, Hcs1. apply app_assoc.
      * apply (round_log_app (A := unit) (inr r)); assumption.
    + injection Hrun as <- <-.
      exact (logs_Read_body dr st w _ w1 Hbody).
Qed.

(** X10.  A call of [DecoderReader.Read] closes the decoder exactly when
    it returns an error: the calls it adds to the log hold no mpg123_close
    when it returns [(n, nil)], and hold one when it returns end of stream
    or, in paranoid mode, the error of the input stream. *)
Theorem Read_closes_iff_error (dr : DecoderReader.t) (bytes b : list byte)
    (fuel : nat) (n : Z) (err : option error) (w w' : W) :
  DecoderReader.Read fuel dr bytes w = Returned (b, n, err) w' ->
  exists cs,
    calls w' = cs ++ calls w
    /\ (err = None -> ~ In call_mpg123_close cs)
    /\ (err <> None -> In call_mpg123_close cs).
Proof.
  intros Hrun. unfold DecoderReader.Read in Hrun.
  destruct (logs_Read_loop dr fuel _ w _ w' Hrun) as (cs & Hcs & Hr).
  exists cs. split; [exact Hcs |].
  destruct err as [e |]; cbn in Hr.
  - split; [discriminate | intros _; exact Hr].
  - split; [intros _; exact Hr | congruence].
Qed.

(** X11.  In lenient mode [DecoderReader.Read] never hands the error of
    the input stream, nor that of a failed feed, to its caller: the only
    error it returns is [io.EOF]. *)
Theorem Read_lenient_errors (dr : DecoderReader.t) (bytes b : list byte)
    (fuel : nat) (n : Z) (err : option error) (w w' : W) :
  DecoderReader.paranoid dr = false ->
  DecoderReader.Read fuel dr bytes w = Returned (b, n, err) w' ->
  err = None \/ err = Some io_EOF.
Proof.
  intros Hpar Hrun. unfold DecoderReader.Read in Hrun.
  destruct (Read_loop_returns dr fuel _ _ _ _ _ _ _ Hrun)
    as (buf1 & bytes1 & w1 & _ & Hbody).
  destruct (Read_body_returns _ _ _ _ _ _ _ _ Hbody)
    as [(Hpar' & _) | (h & rc & written & done & h' & _ & _ & Hc)].
  - congruence.
  - destruct Hc as [[_ He] | [_ He]]; [left | right]; exact He.
Qed.

End SessionProps.

(** ** DecoderReader within the caller's slice *)

Section SessionBounds.
Context {S H : Type} {R : Reader S} {E : Engine H}.

Local Abbreviation W := (World S H).

Lemma loop_in_bounds {St A : Type} (body : St -> M W (St + A)) :
  (forall s, in_bounds (body s)) ->
  forall fuel s, in_bounds (loop fuel body s).
Proof.
  intros Hbody. induction fuel as [| fuel IH]; intros s w w' Hrun.
  - discriminate Hrun.
  - rewrite loop_S in Hrun.
    destruct (body s w) as [[s1 | r] w1 | | w1 |] eqn:Hround;
      try discriminate Hrun.
    + exact (IH s1 w1 w' Hrun).
    + exact (Hbody s w w1 Hround).
Qed.

(** The feeding half returns or panics. *)
Lemma Read_feed_outcome (dr : DecoderReader.t) (buf : list byte) (n : Z)
    (err : option error) (w : W) :
  (exists fed w', DecoderReader.Read_feed dr buf n err w = Returned fed w')
  \/ (exists p w', DecoderReader.Read_feed dr buf n err w = Panicked p w').
Proof.
  unfold DecoderReader.Read_feed. destruct err as [e |].
  - left. destruct (DecoderReader.paranoid dr).
    + unfold bind. rewrite Nuke_eq. eexists. eexists. reflexivity.
    + eexists. eexists. reflexivity.
  - unfold bind, slice_to.
    destruct ((n <? 0) || (len buf <? n));
      [right; eexists; eexists; reflexivity |].
    unfold ret at 1. unfold Decoder.Feed, bind.
    destruct (firstn (Z.to_nat n) buf) as [| x chunk];
      [right; eexists; eexists; reflexivity |].
    unfold addr0, ret at 1, native_feed.
    destruct (mpg123_feed (handle w) (x :: chunk)) as [rc h'].
    left. destruct (negb (C_int rc =? C.MPG123_OK)).
    + rewrite mpg123_error_eq. eexists. eexists. reflexivity.
    + eexists. eexists. reflexivity.
Qed.

Lemma Read_output_within (buf bytes : list byte) (err : option error) (w : W) :
  read_within E ->
  (forall w', DecoderReader.Read_output buf bytes err w <> OutOfBounds w')
  /\ (forall b n e w',
         len bytes <= max_int ->
         DecoderReader.Read_output buf bytes err w = Returned (inr (b, n, e)) w' ->
         0 <= n <= len bytes /\ len b = len bytes).
Proof.
  intros Hengine. unfold DecoderReader.Read_output, bind.
  destruct bytes as [| x bytes']; [split; discriminate |].
  assert (Hb : x :: bytes' <> []) by discriminate.
  remember (x :: bytes') as bytes eqn:Hbytes. clear Hbytes.
  rewrite (addr0_cons bytes w Hb).
  destruct (C_size_t_le (len bytes) (len_nonneg bytes)) as [Hlo Hhi].
  pose proof (C_size_t_range (len bytes)) as Hrange.
  destruct (native_read_within bytes (C_size_t (len bytes)) w Hengine
              ltac:(lia) ltac:(lia)) as [Hsafe Hret].
  destruct (native_read bytes (C_size_t (len bytes)) w)
    as [[[msg b0] done] w1 | p w1 | w1 |] eqn:Hread.
  - destruct (Hret msg b0 done w1 eq_refl) as [Hlen Hdone].
    cbv beta iota.
    destruct (new_format_eq msg w1) as (w2 & cs & Hnf & _). rewrite Hnf.
    split.
    + intros w'. destruct (DecoderReader.listed msg); [| discriminate].
      destruct (0 <? done); [discriminate |].
      destruct (err_is err io_EOF); [| discriminate].
      rewrite Nuke_eq. discriminate.
    + intros b n e w' Hmax Hrun. unfold max_int in Hmax.
      assert (Hint : int done = done) by (apply int_small; lia).
      destruct (DecoderReader.listed msg); [| discriminate Hrun].
      destruct (0 <? done).
      * unfold ret in Hrun. injection Hrun as <- <- _ _.
        rewrite Hint. split; [lia | exact Hlen].
      * destruct (err_is err io_EOF); [| discriminate Hrun].
        rewrite Nuke_eq in Hrun. unfold ret in Hrun.
        injection Hrun as <- <- _ _.
        rewrite Hint. split; [lia | exact Hlen].
  - split; discriminate.
  - exfalso. exact (Hsafe w1 eq_refl).
  - split; discriminate.
Qed.

Lemma Read_body_in_bounds (dr : DecoderReader.t) (st : list byte * list byte) :
  read_within E -> in_bounds (DecoderReader.Read_body (S := S) dr st).
Proof.
  intros Hengine w w' Hrun. destruct st as [buf bytes].
  unfold DecoderReader.Read_body, bind in Hrun.
  destruct (io_Read (src w) (len buf)) as [[[data m] err0] s'] eqn:Hsrc.
  rewrite (src_Read_eq buf w data m err0 s' Hsrc) in Hrun.
  set (w1 := mkWorld s' (handle w) _) in Hrun.
  destruct (Read_feed_outcome dr (store data buf) (int m) err0 w1)
    as [(fed & w2 & Hfeed) | (p & w2 & Hfeed)];
    rewrite Hfeed in Hrun; [| discriminate Hrun].
  destruct fed as [err | [n' e']]; [| discriminate Hrun].
  exact (proj1 (Read_output_within (store data buf) bytes err w2 Hengine)
           w' Hrun).
Qed.

(** X12.  With an engine that keeps to the size it is given,
    [DecoderReader.Read] never writes outside the caller's slice, and what
    it returns obeys the contract of [io.Reader]: the count lies between
    0 and [len(bytes)], and the slice keeps its length. *)
Theorem Read_within_slice (dr : DecoderReader.t) (bytes : list byte)
    (fuel : nat) (w : W) :
  read_within E ->
  len bytes <= max_int ->
  (forall w', DecoderReader.Read fuel dr bytes w <> OutOfBounds w')
  /\ (forall b n err w',
         DecoderReader.Read fuel dr bytes w = Returned (b, n, err) w' ->
         0 <= n <= len bytes /\ len b = len bytes).
Proof.
  intros Hengine Hmax. split.
  - intros w'. unfold DecoderReader.Read.
    apply (loop_in_bounds (DecoderReader.Read_body dr)).
    intros st. apply Read_body_in_bounds. exact Hengine.
  - intros b n err w' Hrun. unfold DecoderReader.Read in Hrun.
    destruct (Read_loop_returns dr fuel _ _ _ _ _ _ _ Hrun)
      as (buf1 & bytes1 & w1 & Hlen & Hbody).
    unfold DecoderReader.Read_body, bind in Hbody.
    destruct (io_Read (src w1) (len buf1)) as [[[data m] err0] s'] eqn:Hsrc.
    rewrite (src_Read_eq buf1 w1 data m err0 s' Hsrc) in Hbody.
    set (w2 := mkWorld s' (handle w1) _) in Hbody.
    destruct (DecoderReader.Read_feed dr (store data buf1) (int m) err0 w2)
      as [[e1 | [n' e']] w3 | | |] eqn:Hfeed; try discriminate Hbody.
    + rewrite <- Hlen in Hmax.
      destruct (proj2 (Read_output_within _ _ _ _ Hengine) b n err w'
                  Hmax Hbody) as [Hn Hb].
      split; congruence.
    + unfold ret in Hbody. injection Hbody as <- <- _ _.
      destruct (Read_feed_early _ _ _ _ _ _ _ _ Hfeed) as (_ & -> & _).
      pose proof (len_nonneg bytes). split; [lia | exact Hlen].
Qed.

(** X13.  An empty slice is not served: in lenient mode the first round of
    [DecoderReader.Read] on a slice of length zero panics, at the latest
    at [&bytes[0]]; in paranoid mode it panics too unless the input stream
    reports an error first. *)
Theorem Read_empty_slice_panics (dr : DecoderReader.t) (fuel : nat) (w : W) :
  (exists p w',
      DecoderReader.Read (Datatypes.S fuel) dr [] w = Panicked p w')
  \/ (DecoderReader.paranoid dr = true
      /\ exists e w',
           DecoderReader.Read (Datatypes.S fuel) dr [] w
           = Returned ([], 0, Some e) w').
Proof.
  unfold DecoderReader.Read. rewrite loop_S.
  unfold DecoderReader.Read_body, bind.
  set (buf := make (64 * 1024)).
  destruct (io_Read (src w) (len buf)) as [[[data m] err0] s'] eqn:Hsrc.
  rewrite (src_Read_eq buf w data m err0 s' Hsrc).
  set (w1 := mkWorld s' (handle w) _).
  destruct (Read_feed_outcome dr (store data buf) (int m) err0 w1)
    as [(fed & w2 & Hfeed) | (p & w2 & Hfeed)]; rewrite Hfeed.
  - destruct fed as [err | [n' e']].
    + left. eexists. eexists. reflexivity.
    + right.
      destruct (Read_feed_early _ _ _ _ _ _ _ _ Hfeed)
        as (Hpar & -> & -> & Hsome & _).
      split; [exact Hpar |].
      destruct err0 as [e0 |]; [| congruence].
      eexists. eexists. reflexivity.
  - left. eexists. eexists. reflexivity.
Qed.

(** X14.  [io.Reader] allows a read of zero bytes with a [nil] error; the
    round in which the input stream answers so panics with an index out
    of range, in [Feed] at [&buf[0]] on the empty slice [buf[0:0]], before
    the engine is fed or read. *)
Theorem Read_zero_count_panics (dr : DecoderReader.t)
    (bytes buf b data : list byte) (k fuel : nat) (n : Z) (s' : S) (w w1 : W) :
  rounds (DecoderReader.Read_body dr) k (make (64 * 1024), bytes) w (buf, b) w1 ->
  io_Read (src w1) (len buf) = (data, n, None, s') ->
  int n = 0 ->
  DecoderReader.Read (k + Datatypes.S fuel) dr bytes w
  = Panicked index_out_of_range
      (mkWorld s' (handle w1) (call_src_Read (len buf) :: calls w1)).
Proof.
  intros Hrounds Hsrc Hn. unfold DecoderReader.Read.
  rewrite (rounds_loop _ k _ _ _ _ Hrounds (Datatypes.S fuel)), loop_S.
  unfold DecoderReader.Read_body, bind.
  rewrite (src_Read_eq buf w1 data n None s' Hsrc), Hn.
  unfold DecoderReader.Read_feed, bind, slice_to.
  replace (len (store data buf) <? 0) with false
    by (symmetry; apply Z.ltb_ge; apply len_nonneg).
  reflexivity.
Qed.

End SessionBounds.

(** ** Feed, SupportedDecoders, NewDecoder *)

Section FeedProps.
Context {S H : Type} {R : Reader S} {E : Engine H}.

Local Abbreviation W := (World S H).

(** X15.  [Feed] on an empty slice panics at [&buf[0]] before the engine
    is called.  On a non-empty slice it hands the whole slice to
    mpg123_feed once and returns [nil] exactly when the engine answers
    MPG123_OK. *)
Theorem Feed_empty_or_fed (buf : list byte) (w : W) (rc : Z) (h' : H) :
  Decoder.Feed [] w = Panicked index_out_of_range w
  /\ (buf <> [] ->
      mpg123_feed (handle w) buf = (rc, h') ->
      exists err w',
        Decoder.Feed buf w = Returned err w'
        /\ handle w' = h'
        /\ (err = None <-> C_int rc = C.MPG123_OK)
        /\ exists cs,
             calls w' = cs ++ call_mpg123_feed buf :: calls w
             /\ forall c, In c cs -> c = call_mpg123_strerror).
Proof.
  split; [reflexivity |].
  intros Hbuf Hfeed. unfold Decoder.Feed, bind.
  rewrite (addr0_cons buf w Hbuf). unfold native_feed. rewrite Hfeed.
  destruct (C_int rc =? C.MPG123_OK) eqn:Hok; cbn [negb].
  - apply Z.eqb_eq in Hok. eexists. eexists.
    split; [reflexivity |]. split; [reflexivity |].
    split; [tauto |]. exists []. split; [reflexivity | intros c []].
  - apply Z.eqb_neq in Hok. rewrite mpg123_error_eq. eexists. eexists.
    split; [reflexivity |]. split; [reflexivity |].
    split; [split; [discriminate | contradiction] |].
    exists [call_mpg123_strerror]. split; [reflexivity |].
    intros c [<- | []]. reflexivity.
Qed.

End FeedProps.

Lemma SupportedDecoders_from_names (names : list string)
    (rest : list (option string)) :
  forall strings,
    SupportedDecoders_from (map Some names ++ None :: rest) strings
    = Some (strings ++ names).
Proof.
  induction names as [| dec names IH]; intros strings; cbn.
  - rewrite app_nil_r. reflexivity.
  - rewrite IH, <- app_assoc. reflexivity.
Qed.

Lemma SupportedDecoders_from_unterminated (names : list string) :
  forall strings, SupportedDecoders_from (map Some names) strings = None.
Proof.
  induction names as [| dec names IH]; intros strings; cbn.
  - reflexivity.
  - apply IH.
Qed.

(** X16.  [SupportedDecoders] returns the names found before the first
    NULL entry of the array, in the array's order, and nothing of what
    follows the NULL; on an array without a NULL entry the walk leaves the
    array. *)
Theorem SupportedDecoders_up_to_NULL (names : list string)
    (rest : list (option string)) :
  SupportedDecoders (map Some names ++ None :: rest) = Some names
  /\ SupportedDecoders (map Some names) = None.
Proof.
  split.
  - apply (SupportedDecoders_from_names names rest []).
  - apply SupportedDecoders_from_unterminated.
Qed.

Section ConstructionProps.
Context {H : Type} {L : Library H}.

(** X17.  [NewDecoder] applies flags only to a named decoder, and only the
    first of them: with the empty name [params] is ignored, with a name
    every parameter after the first is ignored, and an empty non-nil
    [params] panics at [params[0]] once the handle has been made. *)
Theorem NewDecoder_flags (decoder : string) (p : Z) (ps : list Z)
    (params : option (list Z)) (w : list LibCall) :
  NewDecoder (H := H) "" params w = NewDecoder "" None w
  /\ (decoder <> ""%string ->
      NewDecoder (H := H) decoder (Some (p :: ps)) w
      = NewDecoder decoder (Some [p]) w
      /\ NewDecoder (H := H) decoder (Some []) w
         = Construction_panicked index_out_of_range
             (lib_free_CString :: lib_new (Some decoder)
              :: lib_CString decoder :: w)).
Proof.
  split; [reflexivity |].
  intros Hname. apply String.eqb_neq in Hname.
  unfold NewDecoder. rewrite Hname.
  split; [reflexivity |].
  destruct (mpg123_new (Some decoder)) as [mh err]. reflexivity.
Qed.

(** X18.  [NewDecoder] never returns an error.  When it returns, mpg123_new
    answered a handle, the decoder is not [nil] and the error is [nil].
    When mpg123_new answers NULL (and [params[0]] does not panic first) the
    call does not return: it ends in [C.free] of the string that
    mpg123_plain_strerror returned, with the deferred free of the decoder
    name not run. *)
Theorem NewDecoder_result (decoder : string) (params : option (list Z))
    (w : list LibCall) :
  let name := if String.eqb decoder "" then None else Some decoder in
  (forall dec err w',
     NewDecoder decoder params w = Constructed (dec, err) w' ->
     fst (mpg123_new name) <> None /\ dec <> None /\ err = None)
  /\ (fst (mpg123_new name) = None ->
      decoder = ""%string \/ params <> Some [] ->
      exists cs,
        NewDecoder (H := H) decoder params w
        = Invalid_free
            (lib_free_errstring
             :: lib_plain_strerror (C_int (snd (mpg123_new name))) :: cs ++ w)
        /\ ~ In lib_free_CString cs).
Proof.
  unfold NewDecoder. destruct (String.eqb decoder "") eqn:Hname.
  - destruct (mpg123_new None) as [[h |] code]; cbn.
    + split; [| discriminate].
      intros dec err w' Hrun. injection Hrun as <- <- _.
      repeat split; discriminate.
    + split; [discriminate |].
      intros _ _. exists [lib_new None]. split; [reflexivity |].
      intros [Hin | []]. discriminate Hin.
  - apply String.eqb_neq in Hname.
    destruct (mpg123_new (Some decoder)) as [mh code]; cbn [fst snd].
    unfold NewDecoder_param.
    destruct params as [[| p ps] |].
    + split; [discriminate |].
      intros _ [Hempty | Hparams]; [contradiction | now contradiction Hparams].
    + destruct mh as [h |]; cbn.
      * split; [| discriminate].
        intros dec err w' Hrun. injection Hrun as <- <- _.
        repeat split; discriminate.
      * split; [discriminate |].
        intros _ _.
        exists [lib_param true MPG123_FLAGS (C_long p);
                lib_new (Some decoder); lib_CString decoder].
        split; [reflexivity |].
        intros [Hin | [Hin | [Hin | []]]]; discriminate Hin.
    + destruct mh as [h |]; cbn.
      * split; [| discriminate].
        intros dec err w' Hrun. injection Hrun as <- <- _.
        repeat split; discriminate.
      * split; [discriminate |].
        intros _ _.
        exists [lib_new (Some decoder); lib_CString decoder].
        split; [reflexivity |].
        intros [Hin | [Hin | []]]; discriminate Hin.
Qed.

End ConstructionProps.

(** ** mp3dump *)

Section DumpProps.
Context {S H : Type} {R : Reader S} {E : Engine H}.

Local Abbreviation W := (World S H).

Lemma Decoder_Read_total (buf : list byte) (w : W) :
  read_within E ->
  buf <> [] ->
  len buf <= max_int ->
  exists b n err w',
    Decoder.Read buf w = Returned (b, n, err) w'
    /\ 0 <= n <= len buf /\ len b = len buf.
Proof.
  intros Hengine Hbuf Hmax. unfold max_int in Hmax.
  pose proof (len_nonneg buf) as Hnn.
  unfold Decoder.Read, bind. rewrite (addr0_cons buf w Hbuf).
  rewrite C_size_t_small by lia.
  destruct (mpg123_read (handle w) (len buf)) as [[[rc written] done] h']
    eqn:Hread.
  destruct (Hengine _ _ _ _ _ _ Hread Hnn) as [Hdone Hfit].
  rewrite (native_read_eq buf _ w rc written done h' Hread Hfit).
  destruct (read_result_returns (C_int rc) (store written buf)
              (C_size_t done) (mkWorld (src w) h'
                 (call_mpg123_read (len buf) (len buf) :: calls w)))
    as (err & w' & Hres).
  rewrite Hres. eexists. eexists. eexists. eexists.
  split; [reflexivity |].
  rewrite C_size_t_small by lia. rewrite int_small by lia.
  split; [exact Hdone | apply len_store].
Qed.

Lemma dump_body_total (buf o : list byte) (w : W) :
  read_within E ->
  buf <> [] ->
  len buf <= max_int ->
  exists r w',
    mp3dump.dump_body (buf, o) w = Returned r w'
    /\ match r with
       | inl (buf1, _) => len buf1 = len buf
       | inr _ => True
       end.
Proof.
  intros Hengine Hbuf Hmax.
  destruct (Decoder_Read_total buf w Hengine Hbuf Hmax)
    as (b & n & err & w1 & Hread & Hn & Hlen).
  unfold mp3dump.dump_body, bind. rewrite Hread.
  rewrite slice_to_within by (rewrite Hlen; exact Hn).
  destruct err as [e |]; eexists; eexists; (split; [reflexivity |]).
  - exact I.
  - exact Hlen.
Qed.

Lemma len_nonempty (buf : list byte) : 0 < len buf -> buf <> [].
Proof. intros Hlen ->. cbn in Hlen. lia. Qed.

Lemma dump_loop_total (fuel : nat) :
  read_within E ->
  forall (buf o : list byte) (w : W),
    0 < len buf <= max_int ->
    loop fuel mp3dump.dump_body (buf, o) w = OutOfFuel
    \/ exists out w', loop fuel mp3dump.dump_body (buf, o) w = Returned out w'.
Proof.
  intros Hengine.
  induction fuel as [| fuel IH]; intros buf o w Hlen.
  - left. reflexivity.
  - rewrite loop_S.
    destruct (dump_body_total buf o w Hengine
                (len_nonempty buf ltac:(lia)) ltac:(lia))
      as (r & w1 & Hround & Hinv).
    rewrite Hround. destruct r as [[buf1 o1] | out].
    + apply IH. rewrite Hinv. exact Hlen.
    + right. eexists. eexists. reflexivity.
Qed.

(** X19.  With an engine that keeps to the size it is given the loop of
    mp3dump neither panics when it slices [buf[0:len]] nor lets the engine
    write outside [buf]: it returns, or it is still going round. *)
Theorem dump_safe (fuel : nat) (w : W) :
  read_within E ->
  mp3dump.dump fuel w = OutOfFuel
  \/ exists out w', mp3dump.dump fuel w = Returned out w'.
Proof.
  intros Hengine. unfold mp3dump.dump.
  apply dump_loop_total; [exact Hengine |].
  rewrite len_make by lia. unfold max_int. lia.
Qed.

(** X20.  mp3dump writes before it looks at the error: the bytes the
    engine delivers together with MPG123_DONE are handed to [o.Write]
    after everything written in the earlier rounds, and the loop ends
    there. *)
Theorem dump_writes_last_chunk (k fuel : nat) (buf o written : list byte)
    (rc done : Z) (h' : H) (w w1 : W) :
  rounds mp3dump.dump_body k (make (2048 * 16), []) w (buf, o) w1 ->
  buf <> [] ->
  len buf <= max_int ->
  mpg123_read (handle w1) (C_size_t (len buf)) = (rc, written, done, h') ->
  len written <= len buf ->
  0 <= done <= len buf ->
  C_int rc = C.MPG123_DONE ->
  mp3dump.dump (k + Datatypes.S fuel) w
  = Returned (o ++ firstn (Z.to_nat done) (store written buf))
      (mkWorld (src w1) h'
         (call_mpg123_read (len buf) (C_size_t (len buf)) :: calls w1)).
Proof.
  intros Hrounds Hbuf Hmax Hread Hfit Hdone Hrc. unfold max_int in Hmax.
  unfold mp3dump.dump.
  rewrite (rounds_loop _ k _ _ _ _ Hrounds (Datatypes.S fuel)), loop_S.
  unfold mp3dump.dump_body, Decoder.Read, bind.
  rewrite (addr0_cons buf w1 Hbuf).
  rewrite (native_read_eq buf _ w1 rc written done h' Hread Hfit).
  rewrite Hrc, read_result_DONE.
  rewrite C_size_t_small by lia. rewrite int_small by lia.
  rewrite slice_to_within by (rewrite len_store; exact Hdone).
  reflexivity.
Qed.

End DumpProps.

(** ** The rest of the package at concrete runs *)

Section MoreRuns.
Import Script Run Cases ScriptLib.

Lemma Script_decode_within : decode_within Engine_engine.
Proof.
  intros h h' input written size rc done Hcall Hsize.
  cbn in Hcall. unfold answer in Hcall.
  destruct (decodes h) as [| [rc0 bs] q].
  - injection Hcall as _ <- <- _. cbn. lia.
  - injection Hcall as _ <- <- _.
    unfold len. rewrite length_firstn. lia.
Qed.

Lemma two_fits : len two <= max_int.
Proof. vm_compute. discriminate. Qed.

Lemma four_fits : len four <= max_int.
Proof. vm_compute. discriminate. Qed.

(** X1 on a buffer of two bytes. *)
Lemma Decoder_Read_in_bounds_witness :
  read_within Engine_engine
  /\ two <> []
  /\ len two <= max_int
  /\ forall w',
       Decoder.Read two (world [] (four_bytes stereo16 C.MPG123_OK))
       <> OutOfBounds w'.
Proof.
  assert (Hbuf : two <> []) by discriminate.
  split; [exact Script_read_within |].
  split; [exact Hbuf |]. split; [exact two_fits |].
  exact (proj1 (Decoder_Read_in_bounds two
                  (world [] (four_bytes stereo16 C.MPG123_OK))
                  Script_read_within Hbuf two_fits)).
Defined.

(** X2 on one stereo 16-bit frame and a buffer of four bytes. *)
Lemma ReadAudioFrames_in_bounds_witness :
  framesToBytes (E := Engine_engine) 208 1 2 <= len four
  /\ forall w',
       Decoder.ReadAudioFrames 1 four
         (world [] (four_bytes stereo16 C.MPG123_OK))
       <> OutOfBounds w'.
Proof.
  assert (Hfit : framesToBytes (E := Engine_engine) 208 1 2 <= len four)
    by (vm_compute; discriminate).
  split; [exact Hfit |].
  exact (proj1 (ReadAudioFrames_in_bounds 1 four
                  (world [] (four_bytes stereo16 C.MPG123_OK))
                  44100 2 208 (four_bytes stereo16 C.MPG123_OK)
                  Script_read_within eq_refl ltac:(discriminate) Hfit
                  four_fits)).
Defined.

(** X3 on a frame count of -1. *)
Lemma ReadAudioFrames_negative_count_witness :
  - 2 ^ 63 <= C_int (mpg123_encsize (C_int 208)) * -1 * C_int 2 < 0
  /\ exists w',
       world_after
         (Decoder.ReadAudioFrames (-1) four
            (world [] (four_bytes stereo16 C.MPG123_OK)))
       = Some w'
       /\ In (call_mpg123_read (len four)
                (2 ^ 64 + C_int (mpg123_encsize (C_int 208)) * -1 * C_int 2))
             (calls w')
       /\ len four
          < 2 ^ 64 + C_int (mpg123_encsize (C_int 208)) * -1 * C_int 2.
Proof.
  assert (Hneg : - 2 ^ 63
                 <= C_int (mpg123_encsize (C_int 208)) * -1 * C_int 2 < 0)
    by (vm_compute; split; [discriminate | reflexivity]).
  split; [exact Hneg |].
  exact (ReadAudioFrames_negative_count (-1) four
           (world [] (four_bytes stereo16 C.MPG123_OK))
           44100 2 208 (four_bytes stereo16 C.MPG123_OK)
           eq_refl ltac:(discriminate) four_fits Hneg).
Defined.

(** X4 on an engine whose read fails with two bytes decoded. *)
Lemma DecodeSamples_never_fails_witness :
  Decoder.ReadAudioFrames 1 four (world [] faulty)
  = Returned ([x01; x02; x00; x00], 2, Some (Errorf "mpg123 error: scripted"))
      (mkWorld [] (mk_engine [] [] C.MPG123_OK stereo16 0 C.MPG123_ERR)
         [call_mpg123_strerror; call_mpg123_read 4 4; call_mpg123_getformat])
  /\ Decoder.DecodeSamples 1 four (world [] faulty)
     = Returned ([x01; x02; x00; x00], div 2 4, None)
         (mkWorld [] (mk_engine [] [] C.MPG123_OK stereo16 0 C.MPG123_ERR)
            [call_mpg123_strerror; call_mpg123_read 4 4;
             call_mpg123_getformat]).
Proof.
  assert (Hrun : Decoder.ReadAudioFrames 1 four (world [] faulty)
                 = Returned ([x01; x02; x00; x00], 2,
                             Some (Errorf "mpg123 error: scripted"))
                     (mkWorld []
                        (mk_engine [] [] C.MPG123_OK stereo16 0 C.MPG123_ERR)
                        [call_mpg123_strerror; call_mpg123_read 4 4;
                         call_mpg123_getformat]))
    by (vm_compute; reflexivity).
  split; [exact Hrun |].
  exact (proj2 (DecodeSamples_never_fails 1 four (world [] faulty))
           _ _ _ _ Hrun).
Defined.

(** X6 on a drain that starts from one byte. *)
Lemma Decode_drain_appends_witness :
  loop 3 Decoder.Decode_drain ([x07], four) (world [] drains)
  = Returned (C.MPG123_NEED_MORE, [x07; x01; x02; x03])
      (mkWorld [] (mk_engine [] [] C.MPG123_OK stereo16 0 C.MPG123_NEED_MORE)
         [call_mpg123_decode [] 32768; call_mpg123_decode [] 32768;
          call_mpg123_decode [] 32768])
  /\ (exists more, [x07; x01; x02; x03] = [x07] ++ more).
Proof.
  assert (Hrun : loop 3 Decoder.Decode_drain ([x07], four) (world [] drains)
                 = Returned (C.MPG123_NEED_MORE, [x07; x01; x02; x03])
                     (mkWorld []
                        (mk_engine [] [] C.MPG123_OK stereo16 0
                           C.MPG123_NEED_MORE)
                        [call_mpg123_decode [] 32768;
                         call_mpg123_decode [] 32768;
                         call_mpg123_decode [] 32768]))
    by (vm_compute; reflexivity).
  split; [exact Hrun |].
  exact (proj1 (Decode_drain_appends 3 [x07] four _ _ _ _ Hrun)).
Defined.

(** X7 on the engine that decodes three bytes and asks for more. *)
Lemma Decode_returns_after_break_code_witness :
  Decoder.Decode 3 [x09] (world [] drains)
  = Returned ([x01; x02; x03], None)
      (mkWorld [] (mk_engine [] [] C.MPG123_OK stereo16 0 C.MPG123_NEED_MORE)
         [call_mpg123_decode [] 32768; call_mpg123_decode [] 32768;
          call_log; call_mpg123_decode [x09] 32768])
  /\ exists (h : engine) input rc written sz h',
       mpg123_decode h input (C_size_t OUT_MAX_BUFFER_SIZE)
       = (rc, written, sz, h')
       /\ ((@None error = None /\ C_int rc = C.MPG123_NEED_MORE)
           \/ (@None error <> None
               /\ (C_int rc = C.MPG123_ERR \/ C_int rc = C.MPG123_NEED_MORE))).
Proof.
  assert (Hrun : Decoder.Decode 3 [x09] (world [] drains)
                 = Returned ([x01; x02; x03], None)
                     (mkWorld []
                        (mk_engine [] [] C.MPG123_OK stereo16 0
                           C.MPG123_NEED_MORE)
                        [call_mpg123_decode [] 32768;
                         call_mpg123_decode [] 32768;
                         call_log; call_mpg123_decode [x09] 32768]))
    by (vm_compute; reflexivity).
  split; [exact Hrun |].
  exact (Decode_returns_after_break_code 3 [x09] _ _ _ _ Hrun).
Defined.

(** X8 on a chunk the engine cannot decode anything from. *)
Lemma Decode_first_call_rejected_witness :
  [x09] <> []
  /\ Decoder.Decode 3 [x09] (world [] starved)
     = Returned ([], Some (Errorf "mpg123 error: scripted"))
         (mkWorld [] (mk_engine [] [] C.MPG123_OK stereo16 0 C.MPG123_NEED_MORE)
            [call_mpg123_strerror; call_log;
             call_mpg123_decode [x09] (C_size_t OUT_MAX_BUFFER_SIZE)]).
Proof.
  assert (Hbuf : [x09] <> []) by discriminate.
  split; [exact Hbuf |].
  exact (proj2 (Decode_first_call_rejected 3 [x09] (world [] starved)
                  C.MPG123_NEED_MORE 0 []
                  (mk_engine [] [] C.MPG123_OK stereo16 0 C.MPG123_NEED_MORE))
           Hbuf eq_refl ltac:(vm_compute; discriminate)
           (or_introl eq_refl)).
Defined.

(** X9 on the engine that decodes three bytes. *)
Lemma Decode_safe_witness :
  decode_within Engine_engine
  /\ [x09] <> []
  /\ (Decoder.Decode 3 [x09] (world [] drains) = OutOfFuel
      \/ exists r w', Decoder.Decode 3 [x09] (world [] drains) = Returned r w').
Proof.
  assert (Hbuf : [x09] <> []) by discriminate.
  split; [exact Script_decode_within |]. split; [exact Hbuf |].
  exact (Decode_safe 3 [x09] (world [] drains) Script_decode_within Hbuf).
Defined.

(** X10 and X11 on the session that returns end of stream. *)
Lemma Read_closes_iff_error_witness :
  DecoderReader.Read 1 lenient two (world [] hungry)
  = Returned (two, 0, Some io_EOF) ended
  /\ exists cs,
       calls ended = cs ++ calls (world [] hungry)
       /\ (Some io_EOF = None -> ~ In call_mpg123_close cs)
       /\ (Some io_EOF <> None -> In call_mpg123_close cs).
Proof.
  assert (Hrun : DecoderReader.Read 1 lenient two (world [] hungry)
                 = Returned (two, 0, Some io_EOF) ended)
    by (vm_compute; reflexivity).
  split; [exact Hrun |].
  exact (Read_closes_iff_error lenient two two 1 0 (Some io_EOF) _ _ Hrun).
Defined.

Lemma Read_lenient_errors_witness :
  DecoderReader.paranoid lenient = false
  /\ DecoderReader.Read 1 lenient two (world [] hungry)
     = Returned (two, 0, Some io_EOF) ended
  /\ (Some io_EOF = None \/ Some io_EOF = Some io_EOF).
Proof.
  assert (Hrun : DecoderReader.Read 1 lenient two (world [] hungry)
                 = Returned (two, 0, Some io_EOF) ended)
    by (vm_compute; reflexivity).
  split; [reflexivity |]. split; [exact Hrun |].
  exact (Read_lenient_errors lenient two two 1 0 (Some io_EOF) _ _
           eq_refl Hrun).
Defined.

(** X12 on a slice of two bytes. *)
Lemma Read_within_slice_witness :
  read_within Engine_engine
  /\ len two <= max_int
  /\ forall w',
       DecoderReader.Read 3 lenient two
         (world [([x07; x08], 2, None)] (four_bytes stereo16 C.MPG123_OK))
       <> OutOfBounds w'.
Proof.
  split; [exact Script_read_within |]. split; [exact two_fits |].
  exact (proj1 (Read_within_slice lenient two 3
                  (world [([x07; x08], 2, None)]
                     (four_bytes stereo16 C.MPG123_OK))
                  Script_read_within two_fits)).
Defined.

(** X14 on a stream that answers its first read with no bytes and no
    error. *)
Lemma Read_zero_count_panics_witness :
  io_Read (src (world idle_stream hungry)) (len (make (64 * 1024)))
  = ([], 0, None, [])
  /\ int 0 = 0
  /\ DecoderReader.Read 1 lenient two (world idle_stream hungry)
     = Panicked index_out_of_range
         (mkWorld [] hungry [call_src_Read (len (make (64 * 1024)))]).
Proof.
  assert (Hrounds : rounds (DecoderReader.Read_body lenient) 0
                      (make (64 * 1024), two) (world idle_stream hungry)
                      (make (64 * 1024), two) (world idle_stream hungry))
    by apply rounds_O.
  assert (Hsrc : io_Read (src (world idle_stream hungry))
                   (len (make (64 * 1024)))
                 = ([], 0, None, [])) by reflexivity.
  split; [exact Hsrc |]. split; [reflexivity |].
  exact (Read_zero_count_panics lenient two _ _ _ 0 0 _ _ _ _
           Hrounds Hsrc eq_refl).
Defined.

(** X15 on a slice of two bytes and an engine that refuses it. *)
Lemma Feed_empty_or_fed_witness :
  two <> []
  /\ mpg123_feed (handle (world [] failed)) two = (C.MPG123_ERR, failed)
  /\ exists err w',
       Decoder.Feed two (world [] failed) = Returned err w'
       /\ handle w' = failed
       /\ (err = None <-> C_int C.MPG123_ERR = C.MPG123_OK)
       /\ exists cs,
            calls w' = cs ++ call_mpg123_feed two :: calls (world [] failed)
            /\ forall c, In c cs -> c = call_mpg123_strerror.
Proof.
  assert (Hbuf : two <> []) by discriminate.
  split; [exact Hbuf |]. split; [reflexivity |].
  exact (proj2 (Feed_empty_or_fed two (world [] failed) C.MPG123_ERR failed)
           Hbuf eq_refl).
Defined.

(** X17 and X18 on the library that knows the decoder "generic". *)
Lemma NewDecoder_flags_witness :
  "generic"%string <> ""%string
  /\ NewDecoder "generic" (Some [32; 64]) [] = NewDecoder "generic" (Some [32]) []
  /\ NewDecoder "generic" (Some [32; 64]) []
     = Constructed (Some 32, None)
         [lib_free_CString; lib_param false MPG123_FLAGS 32;
          lib_new (Some "generic"%string); lib_CString "generic"].
Proof.
  assert (Hname : "generic"%string <> ""%string) by discriminate.
  split; [exact Hname |].
  split.
  - exact (proj1 (proj2 (NewDecoder_flags "generic" 32 [64] None []) Hname)).
  - vm_compute. reflexivity.
Defined.

Lemma NewDecoder_result_witness :
  fst (mpg123_new (Some "nosuch"%string)) = None
  /\ NewDecoder "nosuch" (Some [32]) []
     = Invalid_free
         [lib_free_errstring; lib_plain_strerror 9;
          lib_param true MPG123_FLAGS 32; lib_new (Some "nosuch"%string);
          lib_CString "nosuch"]
  /\ exists cs,
       NewDecoder "nosuch" (Some [32]) []
       = Invalid_free
           (lib_free_errstring :: lib_plain_strerror 9 :: cs ++ [])
       /\ ~ In lib_free_CString cs.
Proof.
  assert (Hnull : fst (mpg123_new (Some "nosuch"%string)) = None)
    by reflexivity.
  assert (Hparams : "nosuch"%string = ""%string \/ Some [32] <> Some [])
    by (right; discriminate).
  split; [exact Hnull |].
  split; [vm_compute; reflexivity |].
  exact (proj2 (NewDecoder_result "nosuch" (Some [32]) []) Hnull Hparams).
Defined.

(** X19 and X20 on a file whose engine delivers four bytes with
    MPG123_DONE. *)
Lemma dump_safe_witness :
  read_within Engine_engine
  /\ (mp3dump.dump 2 (world [] (four_bytes stereo16 C.MPG123_DONE)) = OutOfFuel
      \/ exists out w',
           mp3dump.dump 2 (world [] (four_bytes stereo16 C.MPG123_DONE))
           = Returned out w').
Proof.
  split; [exact Script_read_within |].
  exact (dump_safe 2 (world [] (four_bytes stereo16 C.MPG123_DONE))
           Script_read_within).
Defined.

Lemma dump_writes_last_chunk_witness :
  mp3dump.dump 1 (world [] (four_bytes stereo16 C.MPG123_DONE))
  = Returned
      ([] ++ firstn (Z.to_nat 4)
               (store [x01; x02; x03; x04] (make (2048 * 16))))
      (mkWorld [] (mk_engine [] [] C.MPG123_OK stereo16 0 C.MPG123_ERR)
         [call_mpg123_read (len (make (2048 * 16)))
            (C_size_t (len (make (2048 * 16))))]).
Proof.
  assert (Hlen : len (make (2048 * 16)) = 2048 * 16)
    by (apply len_make; discriminate).
  assert (Hbuf : make (2048 * 16) <> [])
    by (apply make_nonempty; reflexivity).
  assert (Hmax : len (make (2048 * 16)) <= max_int)
    by (rewrite Hlen; vm_compute; discriminate).
  assert (Hread : mpg123_read
                    (handle (world [] (four_bytes stereo16 C.MPG123_DONE)))
                    (C_size_t (len (make (2048 * 16))))
                  = (C.MPG123_DONE, [x01; x02; x03; x04], 4,
                     mk_engine [] [] C.MPG123_OK stereo16 0 C.MPG123_ERR))
    by (rewrite Hlen; vm_compute; reflexivity).
  assert (Hfit : len [x01; x02; x03; x04] <= len (make (2048 * 16)))
    by (rewrite Hlen; vm_compute; discriminate).
  assert (Hdone : 0 <= 4 <= len (make (2048 * 16)))
    by (rewrite Hlen; vm_compute; split; discriminate).
  exact (dump_writes_last_chunk 0 0 _ _ _ _ _ _ _ _
           (rounds_O _ _ _) Hbuf Hmax Hread Hfit Hdone eq_refl).
Defined.

(** X21 on a round that feeds two bytes, X22 on a stream whose last bytes
    come with [io.EOF]. *)
Lemma Read_body_feeds_witness :
  io_Read (src (world [([x07; x08], 2, None)] hungry)) (len four)
  = ([x07; x08], 2, None, [])
  /\ 0 < int 2 <= len four
  /\ DecoderReader.Read_body lenient (four, two)
       (world [([x07; x08], 2, None)] hungry)
     = DecoderReader.Read_output (store [x07; x08] four) two None
         (mkWorld [] hungry
            [call_mpg123_feed
               (firstn (Z.to_nat (int 2)) (store [x07; x08] four));
             call_src_Read (len four)]).
Proof.
  assert (Hsrc : io_Read (src (world [([x07; x08], 2, None)] hungry))
                   (len four)
                 = ([x07; x08], 2, None, [])) by reflexivity.
  assert (Hn : 0 < int 2 <= len four)
    by (vm_compute; split; [reflexivity | discriminate]).
  split; [exact Hsrc |]. split; [exact Hn |].
  exact (Read_body_feeds lenient four two [x07; x08] 2 C.MPG123_OK []
           hungry (world [([x07; x08], 2, None)] hungry) Hsrc Hn eq_refl).
Defined.

Lemma Read_lenient_returns_at_EOF_witness :
  DecoderReader.paranoid lenient = false
  /\ DecoderReader.listed (C_int C.MPG123_OK) = true
  /\ exists r w',
       DecoderReader.Read 1 lenient two
         (world last_bytes (four_bytes stereo16 C.MPG123_OK))
       = Returned r w'.
Proof.
  assert (Hrounds : rounds (DecoderReader.Read_body lenient) 0
                      (make (64 * 1024), two)
                      (world last_bytes (four_bytes stereo16 C.MPG123_OK))
                      (make (64 * 1024), two)
                      (world last_bytes (four_bytes stereo16 C.MPG123_OK)))
    by apply rounds_O.
  assert (Hsrc : io_Read
                   (src (world last_bytes (four_bytes stereo16 C.MPG123_OK)))
                   (len (make (64 * 1024)))
                 = ([x07; x08], 2, Some io_EOF, [])) by reflexivity.
  assert (Hread : mpg123_read
                    (handle (world last_bytes
                               (four_bytes stereo16 C.MPG123_OK)))
                    (C_size_t (len two))
                  = (C.MPG123_OK, [x01; x02], 2,
                     mk_engine [] [] C.MPG123_OK stereo16 0 C.MPG123_ERR))
    by (vm_compute; reflexivity).
  split; [reflexivity |]. split; [reflexivity |].
  exact (Read_lenient_returns_at_EOF lenient two _ _ _ _ 0 0 _ _ _ _ _ _ _
           eq_refl Hrounds Hsrc ltac:(discriminate) Hread
           ltac:(vm_compute; discriminate) eq_refl).
Defined.

(** The array of a library with two decoders, and entries past the NULL. *)
Example SupportedDecoders_two :
  SupportedDecoders two_decoders = Some ["x86-64"%string; "generic"%string].
Proof. reflexivity. Qed.

End MoreRuns.
